(** * faketerm: a line terminal over a plain reader/writer pair

    Shallow embedding of [faketerm.go] (package [faketerm]) together with the
    parts of the Go standard library its behaviour rests on:
    [bufio.Scanner] with the [bufio.ScanLines] split function,
    [strings.TrimRight], and the [io.Reader] / [io.Writer] interfaces.

    Conventions.
    - A Go [int] is a [Z]; a [[]byte] and a [string] are a [list byte].
    - A Go [error] value is an [option error]; [None] is [nil].
    - A method with a pointer receiver takes the receiver's state and gives
      the new state back with its results.
    - The two mutexes of [FakeTerm] are taken on entry of [ReadLine] and
      [Write] and released on every exit by [defer]; in this sequential
      semantics they are free between calls and carry no state. *)

From Stdlib Require Import List ZArith Lia Bool.
From Stdlib Require Strings.String.
Import String.StringSyntax.
Local Open Scope string_scope.
From Stdlib Require Import Strings.Byte.
Import ListNotations.
Local Open Scope Z_scope.

Set Implicit Arguments.

(** ** Errors *)

(** The error values that can travel through the package.  The sentinels of
    [io] and [bufio] are constructors of their own; any other error value an
    underlying stream may report is a [StreamErr]. *)
Inductive error : Type :=
| EOF                 (* io.EOF *)
| ErrNoProgress       (* io.ErrNoProgress *)
| ErrTooLong          (* bufio.ErrTooLong *)
| ErrNegativeAdvance  (* bufio.ErrNegativeAdvance *)
| ErrAdvanceTooFar    (* bufio.ErrAdvanceTooFar *)
| ErrBadReadCount     (* bufio.ErrBadReadCount *)
| ErrFinalToken       (* bufio.ErrFinalToken *)
| StreamErr (msg : String.string).

Definition error_eq_dec (a b : error) : {a = b} + {a <> b}.
Proof. decide equality. apply String.string_dec. Defined.

Definition error_eqb (a b : error) : bool :=
  if error_eq_dec a b then true else false.

Definition is_nil {A : Type} (o : option A) : bool :=
  match o with None => true | Some _ => false end.

(** Outcome of a call: it returns, it panics, or the model's loop bound was
    reached ([OutOfFuel], shown unreachable in [Scan_returns]). *)
Inductive result (A : Type) : Type :=
| Ok (a : A)
| Panic (msg : String.string)
| OutOfFuel.
Arguments Panic {A} msg.
Arguments OutOfFuel {A}.

(** ** Byte slices *)

Definition len {A : Type} (l : list A) : Z := Z.of_nat (length l).

Definition LF : byte := "010"%byte.
Definition CR : byte := "013"%byte.

(** ** Package [io] *)

Module io.

(** [Read(p)] with [len(p) = cap]: the bytes stored into [p] (their number
    is the count [n] of the Go call), the error, and the reader afterwards. *)
Class Reader (R : Type) : Type :=
  { Read : R -> Z -> list byte * option error * R }.

(** [Write(p)]: the count and the error, and the writer afterwards. *)
Class Writer (W : Type) : Type :=
  { Write : W -> list byte -> Z * option error * W }.

End io.

(** ** Package [bytes] and [strings] *)

Module bytes.

(** Index of the first [c] in [b], or [-1]. *)
Fixpoint IndexByte (b : list byte) (c : byte) : Z :=
  match b with
  | [] => -1
  | x :: t =>
      if Byte.eqb x c then 0
      else let i := IndexByte t c in if i <? 0 then -1 else i + 1
  end.

End bytes.

Module strings.

(** [for len(s) > 0 && set.contains(s[len(s)-1]) { s = s[:len(s)-1] }],
    run on the reversed string. *)
Fixpoint trimLeft (contains : byte -> bool) (s : list byte) : list byte :=
  match s with
  | [] => []
  | c :: t => if contains c then trimLeft contains t else s
  end.

(** Membership in a cutset of ASCII bytes. *)
Definition in_cutset (cutset : list byte) (c : byte) : bool :=
  existsb (Byte.eqb c) cutset.

Definition TrimRight (s cutset : list byte) : list byte :=
  rev' (trimLeft (in_cutset cutset) (rev' s)).

End strings.

(** ** Package [bufio]: the Scanner *)

Module bufio.

Definition MaxScanTokenSize : Z := 64 * 1024.
Definition startBufSize : Z := 4096.
Definition maxConsecutiveEmptyReads : nat := 100.
Definition maxInt : Z := 2 ^ 63 - 1.

(** [dropCR]: drops one terminal carriage return. *)
Definition dropCR (data : list byte) : list byte :=
  if (0 <? len data) && Byte.eqb (last data LF) CR
  then firstn (Z.to_nat (len data - 1)) data
  else data.

(** [ScanLines(data, atEOF)]: advance, token ([None] is a nil slice) and
    error. *)
Definition ScanLines (data : list byte) (atEOF : bool)
  : Z * option (list byte) * option error :=
  if atEOF && (len data =? 0) then (0, None, None)
  else
    let i := bytes.IndexByte data LF in
    if 0 <=? i then (i + 1, Some (dropCR (firstn (Z.to_nat i) data)), None)
    else if atEOF then (len data, Some (dropCR data), None)
    else (0, None, None).

(** The scanner.  The byte array [buf] is kept as its length [buf_len] and
    the window [data = buf[start:end]]; so [end = start + len data].  The
    bytes outside the window are never read by the code.  The split function
    is always [ScanLines] ([NewScanner] sets it and the package never calls
    [Split]); [scanCalled] only guards [Buffer] and [Split] and is left
    out. *)
Record Scanner (R : Type) : Type := mkScanner
  { r : R;
    maxTokenSize : Z;
    tok : option (list byte);
    buf_len : Z;
    start : Z;
    data : list byte;
    err : option error;
    empties : Z;
    done : bool }.

Section WithReader.
Context {R : Type} `{io.Reader R}.

Definition end_ (s : Scanner R) : Z := start s + len (data s).

Definition set_r (x : R) (s : Scanner R) : Scanner R :=
  mkScanner x (maxTokenSize s) (tok s) (buf_len s) (start s) (data s)
            (err s) (empties s) (done s).
Definition set_tok (x : option (list byte)) (s : Scanner R) : Scanner R :=
  mkScanner (r s) (maxTokenSize s) x (buf_len s) (start s) (data s)
            (err s) (empties s) (done s).
Definition set_buf_len (x : Z) (s : Scanner R) : Scanner R :=
  mkScanner (r s) (maxTokenSize s) (tok s) x (start s) (data s)
            (err s) (empties s) (done s).
Definition set_start (x : Z) (s : Scanner R) : Scanner R :=
  mkScanner (r s) (maxTokenSize s) (tok s) (buf_len s) x (data s)
            (err s) (empties s) (done s).
Definition set_data (x : list byte) (s : Scanner R) : Scanner R :=
  mkScanner (r s) (maxTokenSize s) (tok s) (buf_len s) (start s) x
            (err s) (empties s) (done s).
Definition set_err (x : option error) (s : Scanner R) : Scanner R :=
  mkScanner (r s) (maxTokenSize s) (tok s) (buf_len s) (start s) (data s)
            x (empties s) (done s).
Definition set_empties (x : Z) (s : Scanner R) : Scanner R :=
  mkScanner (r s) (maxTokenSize s) (tok s) (buf_len s) (start s) (data s)
            (err s) x (done s).
Definition set_done (x : bool) (s : Scanner R) : Scanner R :=
  mkScanner (r s) (maxTokenSize s) (tok s) (buf_len s) (start s) (data s)
            (err s) (empties s) x.

(** [NewScanner(r)]: split function [ScanLines], no buffer yet. *)
Definition NewScanner (rd : R) : Scanner R :=
  mkScanner rd MaxScanTokenSize None 0 0 [] None 0 false.

(** [Err]: the first error that was not [io.EOF]. *)
Definition Err (s : Scanner R) : option error :=
  match err s with
  | Some EOF => None
  | e => e
  end.

(** [Text]: the latest token as a string. *)
Definition Text (s : Scanner R) : list byte :=
  match tok s with Some t => t | None => [] end.

(** [setErr]: records the first error. *)
Definition setErr (e : error) (s : Scanner R) : Scanner R :=
  match err s with
  | None | Some EOF => set_err (Some e) s
  | Some _ => s
  end.

(** [advance(n)]: consumes [n] bytes of the window. *)
Definition advance (n : Z) (s : Scanner R) : bool * Scanner R :=
  if n <? 0 then (false, setErr ErrNegativeAdvance s)
  else if end_ s - start s <? n then (false, setErr ErrAdvanceTooFar s)
  else (true, set_start (start s + n)
                (set_data (skipn (Z.to_nat n) (data s)) s)).

(** The inner [for loop := 0; ; { ... }] of [Scan], which reads into
    [buf[end:len(buf)]].  [k] counts the empty reads still allowed:
    [k = maxConsecutiveEmptyReads - loop], so [loop++] followed by
    [loop > maxConsecutiveEmptyReads] is the case [k = 0]. *)
Fixpoint read_loop (k : nat) (s : Scanner R) : Scanner R :=
  let '(bs, e, rd) := io.Read (r s) (buf_len s - end_ s) in
  let s := set_r rd s in
  let n := len bs in
  if (n <? 0) || (buf_len s - end_ s <? n) then setErr ErrBadReadCount s
  else
    let s := set_data (data s ++ bs) s in
    match e with
    | Some e => setErr e s
    | None =>
        if 0 <? n then set_empties 0 s
        else match k with
             | O => setErr ErrNoProgress s
             | S k' => read_loop k' s
             end
    end.

(** What one turn of the outer [for] of [Scan] does. *)
Inductive turn : Type :=
| Return (b : bool) (s : Scanner R)
| Continue (s : Scanner R)
| Panics (msg : String.string).

(** The first block of the loop body: try to cut a token out of what the
    buffer holds. *)
Definition try_token (s : Scanner R) : turn :=
  let '(adv, token, e) := ScanLines (data s) (negb (is_nil (err s))) in
  match e with
  | Some e =>
      if error_eqb e ErrFinalToken
      then Return (negb (is_nil token)) (set_done true (set_tok token s))
      else Return false (setErr e s)
  | None =>
      let '(ok, s) := advance adv s in
      if negb ok then Return false s
      else
        let s := set_tok token s in
        match token with
        | Some _ =>
            if is_nil (err s) || (0 <? adv) then Return true (set_empties 0 s)
            else
              let s := set_empties (empties s + 1) s in
              if Z.of_nat maxConsecutiveEmptyReads <? empties s
              then Panics "bufio.Scan: too many empty tokens without progressing"
              else Return true s
        | None => Continue s
        end
  end.

(** The rest of the loop body: stop on an error, else make room and read. *)
Definition fill (s : Scanner R) : turn :=
  if negb (is_nil (err s)) then Return false (set_start 0 (set_data [] s))
  else
    let s :=
      if (0 <? start s)
         && ((end_ s =? buf_len s) || (Z.quot (buf_len s) 2 <? start s))
      then set_start 0 s else s in
    if end_ s =? buf_len s then
      if (maxTokenSize s <=? buf_len s) || (Z.quot maxInt 2 <? buf_len s)
      then Return false (setErr ErrTooLong s)
      else
        let newSize := buf_len s * 2 in
        let newSize := if newSize =? 0 then startBufSize else newSize in
        let newSize := Z.min newSize (maxTokenSize s) in
        Continue (read_loop maxConsecutiveEmptyReads
                    (set_start 0 (set_buf_len newSize s)))
    else Continue (read_loop maxConsecutiveEmptyReads s).

Definition scan_turn (s : Scanner R) : turn :=
  if (start s <? end_ s) || negb (is_nil (err s)) then
    match try_token s with
    | Continue s => fill s
    | t => t
    end
  else fill s.

(** The outer [for] of [Scan], at most [fuel] turns. *)
Fixpoint scan_loop (fuel : nat) (s : Scanner R) : result (bool * Scanner R) :=
  match fuel with
  | O => OutOfFuel
  | S fuel' =>
      match scan_turn s with
      | Return b s => Ok (b, s)
      | Continue s => scan_loop fuel' s
      | Panics msg => Panic msg
      end
  end.

(** A turn that does not return sets an error or makes the window longer,
    and the window never outgrows [maxTokenSize]: this many turns are
    enough (see [Scan_returns]). *)
Definition scan_fuel (s : Scanner R) : nat :=
  Z.to_nat (maxTokenSize s + 2).

Definition Scan (s : Scanner R) : result (bool * Scanner R) :=
  if done s then Ok (false, s)
  else scan_loop (scan_fuel s) s.

(** [enough fuel s]: [fuel] turns cover what the window of [s] can
    still grow by. *)
Definition enough (fuel : nat) (s : Scanner R) : Prop :=
  (0 < fuel)%nat
  /\ (err s = None -> maxTokenSize s - len (data s) + 1 < Z.of_nat fuel).

(** The states the code keeps between calls: the window lies inside the
    buffer, the buffer is no longer than [maxTokenSize] (itself far from
    overflow), and no final token was seen. *)
Definition wf (s : Scanner R) : Prop :=
  0 <= start s /\ end_ s <= buf_len s /\ buf_len s <= maxTokenSize s
  /\ maxTokenSize s <= Z.quot maxInt 2 /\ done s = false.

End WithReader.

End bufio.

(** ** Package [faketerm] *)

(** [FakeTerm]: the writer [w] and the scanner [s] over the reader. *)
Record FakeTerm (R W : Type) : Type := mkFakeTerm
  { w : W;
    s : bufio.Scanner R }.

Section FakeTerm.
Context {R W : Type} `{io.Reader R} `{io.Writer W}.

Definition CRLF : list byte := [CR; LF].

(** [New(r, w)]. *)
Definition New (rd : R) (wr : W) : FakeTerm R W :=
  mkFakeTerm wr (bufio.NewScanner rd).

(** [ReadLine()]: the line, the error, and the terminal afterwards. *)
Definition ReadLine (f : FakeTerm R W)
  : result (list byte * option error * FakeTerm R W) :=
  match bufio.Scan (s f) with
  | Ok (false, s') =>
      let err := bufio.Err s' in
      match err with
      | None => Ok ([], Some EOF, mkFakeTerm (w f) s')
      | Some _ => Ok ([], bufio.Err s', mkFakeTerm (w f) s')
      end
  | Ok (true, s') =>
      Ok (strings.TrimRight (bufio.Text s') CRLF, None, mkFakeTerm (w f) s')
  | Panic msg => Panic msg
  | OutOfFuel => OutOfFuel
  end.

(** [ReadPassword(prompt)]: the prompt is ignored. *)
Definition ReadPassword (prompt : list byte) (f : FakeTerm R W)
  : result (list byte * option error * FakeTerm R W) :=
  ReadLine f.

(** [SetBracketedPasteMode(on)]: empty body. *)
Definition SetBracketedPasteMode (on : bool) (f : FakeTerm R W)
  : FakeTerm R W := f.

(** [SetPrompt(prompt)]: empty body. *)
Definition SetPrompt (prompt : list byte) (f : FakeTerm R W)
  : FakeTerm R W := f.

(** [SetSize(width, height)]: returns nil. *)
Definition SetSize (width height : Z) (f : FakeTerm R W)
  : option error * FakeTerm R W := (None, f).

(** [Write(buf)]: the result of the writer's [Write]. *)
Definition Write (buf : list byte) (f : FakeTerm R W)
  : Z * option error * FakeTerm R W :=
  let '(n, err, w') := io.Write (w f) buf in
  (n, err, mkFakeTerm w' (s f)).

(** [n] calls of [ReadLine] in a row: what each returned, and the
    terminal after the last. *)
Fixpoint ReadLines (n : nat) (f : FakeTerm R W)
  : result (list (list byte * option error) * FakeTerm R W) :=
  match n with
  | O => Ok ([], f)
  | S n' =>
      match ReadLine f with
      | Ok (line, err, f') =>
          match ReadLines n' f' with
          | Ok (rest, f'') => Ok ((line, err) :: rest, f'')
          | Panic msg => Panic msg
          | OutOfFuel => OutOfFuel
          end
      | Panic msg => Panic msg
      | OutOfFuel => OutOfFuel
      end
  end.

(** The terminals a program can hold: a new one, and what the methods make
    of one. *)
Inductive reachable : FakeTerm R W -> Prop :=
| reach_New (rd : R) (wr : W) : reachable (New rd wr)
| reach_ReadLine (f f' : FakeTerm R W) line err :
    reachable f -> ReadLine f = Ok (line, err, f') -> reachable f'
| reach_ReadPassword (f f' : FakeTerm R W) prompt line err :
    reachable f -> ReadPassword prompt f = Ok (line, err, f') -> reachable f'
| reach_SetBracketedPasteMode (f : FakeTerm R W) on :
    reachable f -> reachable (SetBracketedPasteMode on f)
| reach_SetPrompt (f : FakeTerm R W) prompt :
    reachable f -> reachable (SetPrompt prompt f)
| reach_SetSize (f : FakeTerm R W) width height :
    reachable f -> reachable (snd (SetSize width height f))
| reach_Write (f : FakeTerm R W) buf :
    reachable f -> reachable (snd (Write buf f)).

End FakeTerm.

(** ** Streams for the two interfaces *)

(** A scripted reader: the results its coming [Read] calls hold ready, each
    some bytes and possibly an error.  A [Read] into a buffer shorter than the
    bytes at the head takes what fits and leaves the rest (with the error) for
    the next call; a reader with nothing left reports [io.EOF]. *)
Definition Script : Type := list (list byte * option error).

#[export] Instance ScriptReader : io.Reader Script :=
  {| io.Read := fun (rd : Script) (cap : Z) =>
       match rd with
       | [] => ([], Some EOF, [])
       | (bs, e) :: rd' =>
           if len bs <=? cap then (bs, e, rd')
           else (firstn (Z.to_nat cap) bs, None,
                 (skipn (Z.to_nat cap) bs, e) :: rd')
       end |}.

(** A recording writer: every [Write] call is logged with its argument; the
    count and error it answers are given by [reply], a function of the call's
    number and argument. *)
Record Sink : Type := mkSink
  { calls : list (list byte);
    reply : nat -> list byte -> Z * option error }.

#[export] Instance SinkWriter : io.Writer Sink :=
  {| io.Write := fun (wr : Sink) (p : list byte) =>
       let '(n, e) := reply wr (List.length (calls wr)) p in
       (n, e, mkSink (calls wr ++ [p]) (reply wr)) |}.

(** A sink that takes everything. *)
Definition devnull : Sink := mkSink [] (fun _ p => (len p, None)).

(** Bytes of an ASCII string literal. *)
Definition bytes_of (str : String.string) : list byte := String.list_byte_of_string str.

(** The stream a list of lines makes: each followed by a newline. *)
Definition unlines (lines : list (list byte)) : list byte :=
  concat (map (fun l => l ++ [LF]) lines).

(** What the scanner gets out of a script: the bytes up to the first error,
    and that error; [io.EOF] when the script runs out without one, and
    [io.ErrNoProgress] at an empty read (no bytes, nil error) that comes
    after [k] empty reads in a row, since the scanner then gives up. *)
Fixpoint delivers_from (k : nat) (rd : Script) : list byte * error :=
  match rd with
  | [] => ([], EOF)
  | (bs, Some e) :: _ => (bs, e)
  | ([], None) :: rd' =>
      match k with
      | O => ([], ErrNoProgress)
      | S k' => delivers_from k' rd'
      end
  | (bs, None) :: rd' =>
      let '(b, e) := delivers_from bufio.maxConsecutiveEmptyReads rd' in
      (bs ++ b, e)
  end.

Definition delivers (rd : Script) : list byte * error :=
  delivers_from bufio.maxConsecutiveEmptyReads rd.

(** [pending s input e]: the scanner [s] over a script still has [input] to
    hand out, partly in its window and partly in the script, followed by the
    error [e]. *)
Definition pending (s : bufio.Scanner Script) (input : list byte) (e : error)
  : Prop :=
  bufio.wf s
  /\ ((bufio.err s = None
       /\ exists str, delivers (bufio.r s) = (str, e)
                      /\ input = bufio.data s ++ str)
      \/ (bufio.err s = Some e /\ bufio.data s = input)).

(** What a call returned, when it did. *)
Definition returned {A B : Type} (x : result (A * B)) : option A :=
  match x with
  | Ok (a, _) => Some a
  | _ => None
  end.

(** A line the scanner can hold: no newline inside, and shorter than the
    greatest token. *)
Definition fits (l : list byte) : Prop :=
  ~ In LF l /\ len l < bufio.MaxScanTokenSize.

(** The last line of a stream when it lacks its newline. *)
Definition final_line (tail : list byte) : list (list byte) :=
  match tail with
  | [] => []
  | _ => [tail]
  end.

(** What [ReadLine] returns for a line. *)
Definition as_line (l : list byte) : list byte * option error :=
  (strings.TrimRight l CRLF, None).

(** The length and the error of each result, to show long results. *)
Definition sizes (x : option (list (list byte * option error)))
  : option (list (Z * option error)) :=
  option_map (map (fun p => (len (fst p), snd p))) x.

(** ** Streams used as examples *)

(** The scenario of the specification: two lines, the first ending in CR LF. *)
Definition hello_world : Script :=
  [(bytes_of "hello" ++ [CR; LF] ++ bytes_of "world" ++ [LF], None)].

(** A line of exactly [MaxScanTokenSize] bytes, none a newline. *)
Definition long_line : list byte :=
  repeat "a"%byte (Z.to_nat bufio.MaxScanTokenSize).

(** That line with its newline, in one read, then end of input. *)
Definition long_script : Script := [(long_line ++ [LF], None)].

(** That line as the unterminated end of a stream. *)
Definition long_tail_script : Script := [(long_line, None)].

(** A stream that breaks in the middle of its second line. *)
Definition broken_script : Script :=
  [(bytes_of "ab" ++ [LF] ++ bytes_of "c", Some (StreamErr "boom"));
   (bytes_of "d" ++ [LF], None)].

(** A stream whose last line has no newline. *)
Definition unterminated_script : Script :=
  [(bytes_of "a" ++ [LF] ++ bytes_of "bc", None)].

(** ** Sequences of writes, and more streams *)

(** The calls [Write(b1)], [Write(b2)], ... in a row: what each returned,
    and the terminal after the last. *)
Fixpoint Writes {R W : Type} `{io.Reader R} `{io.Writer W}
  (bufs : list (list byte)) (f : FakeTerm R W)
  : list (Z * option error) * FakeTerm R W :=
  match bufs with
  | [] => ([], f)
  | buf :: bufs' =>
      let '(n, err, f') := Write buf f in
      let '(rest, f'') := Writes bufs' f' in
      ((n, err) :: rest, f'')
  end.

(** The terminal over [hello_world], after its first [ReadLine]. *)
Definition after_hello : FakeTerm Script Sink :=
  match ReadLine (New hello_world devnull) with
  | Ok (_, _, f) => f
  | _ => New hello_world devnull
  end.

(** The bytes of [hello_world], cut in other places. *)
Definition hello_world_in_pieces : Script :=
  [(bytes_of "hel", None);
   (bytes_of "lo" ++ [CR; LF] ++ bytes_of "wo", None);
   (bytes_of "rld" ++ [LF], None)].


(** A reader that breaks the contract of [io.Reader]: it always claims one
    byte more than it was given room for. *)
Inductive Rogue : Type := rogue.

#[export] Instance RogueReader : io.Reader Rogue :=
  {| io.Read := fun (rd : Rogue) (cap : Z) =>
       (repeat "a"%byte (Z.to_nat (cap + 1)), None, rd) |}.

(** More than [MaxScanTokenSize] bytes without newline, and then an error
    of the source. *)
Definition long_then_boom : Script :=
  [(long_line ++ [("a"%byte)], Some (StreamErr "boom"))].

(** The terminal over [long_script], after its first [ReadLine]. *)
Definition after_too_long : FakeTerm Script Sink :=
  match ReadLine (New long_script devnull) with
  | Ok (_, _, f) => f
  | _ => New long_script devnull
  end.

(** A source that itself reports [bufio.ErrTooLong], after two bytes. *)
Definition too_long_from_source : Script :=
  [(bytes_of "ab", Some ErrTooLong)].

(** The terminal over it after the first [ReadLine], and after the second. *)
Definition after_ab : FakeTerm Script Sink :=
  match ReadLine (New too_long_from_source devnull) with
  | Ok (_, _, f) => f
  | _ => New too_long_from_source devnull
  end.

Definition after_ab_error : FakeTerm Script Sink :=
  match ReadLine after_ab with
  | Ok (_, _, f) => f
  | _ => after_ab
  end.

(** * Proofs *)

(** The bound of the read loop and the greatest [int] stay folded in the
    proofs. *)
Opaque bufio.maxConsecutiveEmptyReads bufio.maxInt.

Unset Implicit Arguments.

(** ** Bytes and lists *)

Lemma byte_eqb_eq (x y : byte) : Byte.eqb x y = true <-> x = y.
Proof. split; [apply Byte.byte_dec_bl | apply Byte.byte_dec_lb]. Qed.

Lemma byte_eqb_neq (x y : byte) : Byte.eqb x y = false <-> x <> y.
Proof.
  split.
  - apply Byte.eqb_false.
  - intros Hne. destruct (Byte.eqb x y) eqn:E; [|reflexivity].
    apply byte_eqb_eq in E. contradiction.
Qed.

Lemma len_nonneg {A : Type} (l : list A) : 0 <= len l.
Proof. unfold len. lia. Qed.

Lemma len_nil {A : Type} : len (@nil A) = 0.
Proof. reflexivity. Qed.

Lemma len_cons {A : Type} (x : A) (l : list A) : len (x :: l) = len l + 1.
Proof. unfold len. simpl length. lia. Qed.

Lemma len_app {A : Type} (l1 l2 : list A) : len (l1 ++ l2) = len l1 + len l2.
Proof. unfold len. rewrite length_app. lia. Qed.

Lemma len_zero_nil {A : Type} (l : list A) : len l = 0 -> l = [].
Proof. destruct l; [reflexivity|]. rewrite len_cons. pose proof (len_nonneg l). lia. Qed.

Lemma len_pos {A : Type} (l : list A) : l <> [] -> 0 < len l.
Proof.
  destruct l; [congruence|]. intros _. rewrite len_cons.
  pose proof (len_nonneg l). lia.
Qed.

Lemma firstn_len_app {A : Type} (l1 l2 : list A) :
  firstn (Z.to_nat (len l1)) (l1 ++ l2) = l1.
Proof.
  unfold len. rewrite Nat2Z.id, firstn_app, Nat.sub_diag, firstn_all.
  simpl. apply app_nil_r.
Qed.

Lemma skipn_len_app {A : Type} (l1 l2 : list A) :
  skipn (Z.to_nat (len l1)) (l1 ++ l2) = l2.
Proof.
  unfold len. rewrite Nat2Z.id, skipn_app, Nat.sub_diag, skipn_all.
  reflexivity.
Qed.

(** The first occurrence of a byte splits a list. *)
Lemma first_split (c : byte) (d : list byte) :
  In c d -> exists l rest, d = l ++ c :: rest /\ ~ In c l.
Proof.
  induction d as [|x d IH]; intros Hin; [destruct Hin|].
  destruct (Byte.byte_eq_dec x c) as [->|Hne].
  - exists [], d. split; [reflexivity | intros []].
  - destruct Hin as [->|Hin]; [congruence|].
    destruct (IH Hin) as (l & rest & -> & Hl).
    exists (x :: l), rest. split; [reflexivity|].
    intros [->|H']; [congruence | contradiction].
Qed.

(** Two ways to cut one stream at its first newline agree. *)
Lemma split_at_first (c : byte) (l1 l2 r1 r2 : list byte) :
  l1 ++ c :: r1 = l2 ++ c :: r2 -> ~ In c l1 -> ~ In c l2 ->
  l1 = l2 /\ r1 = r2.
Proof.
  revert l2. induction l1 as [|x l1 IH]; intros [|y l2] Heq H1 H2; simpl in *.
  - injection Heq as ->. split; reflexivity.
  - injection Heq as <- _. exfalso. apply H2. left. reflexivity.
  - injection Heq as -> _. exfalso. apply H1. left. reflexivity.
  - injection Heq as -> Heq.
    destruct (IH l2 Heq) as [-> ->]; [tauto | tauto | split; reflexivity].
Qed.

(** A newline-free prefix of a stream that starts with a line lies within
    that line. *)
Lemma prefix_before_first (c : byte) (d str line rest : list byte) :
  d ++ str = line ++ c :: rest -> ~ In c d ->
  exists m, line = d ++ m /\ str = m ++ c :: rest.
Proof.
  revert line. induction d as [|x d IH]; intros line Heq Hd; simpl in *.
  - exists line. split; [reflexivity | assumption].
  - destruct line as [|y line]; simpl in Heq.
    + injection Heq as -> _. exfalso. apply Hd. left. reflexivity.
    + injection Heq as -> Heq.
      destruct (IH line Heq) as (m & -> & ->); [tauto|].
      exists m. split; reflexivity.
Qed.

(** A stream with a newline inside its buffered part. *)
Lemma line_inside (c : byte) (d str line rest : list byte) :
  d ++ str = line ++ c :: rest -> ~ In c line -> In c d ->
  exists rest', d = line ++ c :: rest' /\ rest = rest' ++ str.
Proof.
  intros Heq Hline Hd.
  destruct (first_split c d Hd) as (l & r' & -> & Hl).
  rewrite <- app_assoc in Heq. simpl in Heq.
  destruct (split_at_first c l line _ _ Heq Hl Hline) as [-> <-].
  exists r'. split; reflexivity.
Qed.

(** ** [bytes.IndexByte], [dropCR], [ScanLines], [strings.TrimRight] *)

Lemma IndexByte_absent (c : byte) (b : list byte) :
  ~ In c b -> bytes.IndexByte b c = -1.
Proof.
  induction b as [|x b IH]; intros Hn; simpl; [reflexivity|].
  destruct (Byte.eqb x c) eqn:E.
  - apply byte_eqb_eq in E. subst. exfalso. apply Hn. left. reflexivity.
  - rewrite IH by (intros Hin; apply Hn; right; exact Hin). reflexivity.
Qed.

Lemma IndexByte_first (c : byte) (l rest : list byte) :
  ~ In c l -> bytes.IndexByte (l ++ c :: rest) c = len l.
Proof.
  induction l as [|x l IH]; intros Hn; simpl.
  - rewrite (proj2 (byte_eqb_eq c c) eq_refl). reflexivity.
  - destruct (Byte.eqb x c) eqn:E.
    + apply byte_eqb_eq in E. subst. exfalso. apply Hn. left. reflexivity.
    + rewrite IH by (intros Hin; apply Hn; right; exact Hin).
      pose proof (len_nonneg l) as Hl.
      destruct (Z.ltb_spec (len l) 0); [lia|]. rewrite len_cons. reflexivity.
Qed.

Lemma ScanLines_line (line rest : list byte) (atEOF : bool) :
  ~ In LF line ->
  bufio.ScanLines (line ++ LF :: rest) atEOF
  = (len line + 1, Some (bufio.dropCR line), None).
Proof.
  intros Hn. unfold bufio.ScanLines.
  assert (Hlen : (len (line ++ LF :: rest) =? 0) = false).
  { apply Z.eqb_neq. rewrite len_app, len_cons.
    pose proof (len_nonneg line). pose proof (len_nonneg rest). lia. }
  rewrite Hlen, andb_false_r, IndexByte_first by assumption.
  pose proof (len_nonneg line) as Hl.
  destruct (Z.leb_spec 0 (len line)); [|lia].
  rewrite firstn_len_app. reflexivity.
Qed.

Lemma ScanLines_final (d : list byte) :
  ~ In LF d -> d <> [] ->
  bufio.ScanLines d true = (len d, Some (bufio.dropCR d), None).
Proof.
  intros Hn Hne. unfold bufio.ScanLines.
  pose proof (len_pos d Hne) as Hp.
  destruct (Z.eqb_spec (len d) 0); [lia|]. simpl.
  rewrite IndexByte_absent by assumption. reflexivity.
Qed.

Lemma ScanLines_more (d : list byte) :
  ~ In LF d -> bufio.ScanLines d false = (0, None, None).
Proof.
  intros Hn. unfold bufio.ScanLines. simpl.
  rewrite IndexByte_absent by assumption. reflexivity.
Qed.

Lemma ScanLines_drained : bufio.ScanLines [] true = (0, None, None).
Proof. reflexivity. Qed.

Lemma in_cutset_In (cutset : list byte) (c : byte) :
  strings.in_cutset cutset c = true <-> In c cutset.
Proof.
  unfold strings.in_cutset. rewrite existsb_exists. split.
  - intros (x & Hx & E). apply byte_eqb_eq in E. subst. exact Hx.
  - intros Hin. exists c. split; [exact Hin | apply byte_eqb_eq; reflexivity].
Qed.

Lemma TrimRight_rev (s cutset : list byte) :
  strings.TrimRight s cutset
  = rev (strings.trimLeft (strings.in_cutset cutset) (rev s)).
Proof. unfold strings.TrimRight, rev'. rewrite <- !rev_alt. reflexivity. Qed.

Lemma TrimRight_snoc_cut (s cutset : list byte) (c : byte) :
  In c cutset ->
  strings.TrimRight (s ++ [c]) cutset = strings.TrimRight s cutset.
Proof.
  intros Hc. rewrite !TrimRight_rev, rev_app_distr. simpl.
  rewrite (proj2 (in_cutset_In cutset c) Hc). reflexivity.
Qed.

Lemma TrimRight_snoc_keep (s cutset : list byte) (c : byte) :
  ~ In c cutset -> strings.TrimRight (s ++ [c]) cutset = s ++ [c].
Proof.
  intros Hc. rewrite TrimRight_rev, rev_app_distr. simpl.
  destruct (strings.in_cutset cutset c) eqn:E.
  - apply in_cutset_In in E. contradiction.
  - simpl. rewrite rev_involutive. reflexivity.
Qed.

(** What [TrimRight] computes: the string without its longest tail made of
    bytes of the cutset. *)
Lemma TrimRight_spec (s cutset : list byte) :
  exists t,
    s = strings.TrimRight s cutset ++ t
    /\ Forall (fun c => In c cutset) t
    /\ forall s' c, strings.TrimRight s cutset = s' ++ [c] -> ~ In c cutset.
Proof.
  induction s as [|c s IH] using rev_ind.
  - exists []. split; [reflexivity|]. split; [constructor|].
    intros s' c E. destruct s'; discriminate E.
  - destruct (in_dec Byte.byte_eq_dec c cutset) as [Hc|Hc].
    + rewrite (TrimRight_snoc_cut s cutset c Hc).
      destruct IH as (t & Hs & Ht & Hlast).
      exists (t ++ [c]). split; [|split].
      * rewrite app_assoc, <- Hs. reflexivity.
      * apply Forall_app. split; [exact Ht | constructor; [exact Hc | constructor]].
      * exact Hlast.
    + rewrite (TrimRight_snoc_keep s cutset c Hc).
      exists []. split; [symmetry; apply app_nil_r|]. split; [constructor|].
      intros s' c' E. apply app_inj_tail in E. destruct E as [_ <-]. exact Hc.
Qed.

Lemma dropCR_snoc_CR (l : list byte) : bufio.dropCR (l ++ [CR]) = l.
Proof.
  unfold bufio.dropCR. rewrite last_last, len_app.
  change (len [CR]) with 1. pose proof (len_nonneg l) as Hl.
  destruct (Z.ltb_spec 0 (len l + 1)); [|lia]. simpl.
  replace (len l + 1 - 1) with (len l) by lia. apply firstn_len_app.
Qed.

Lemma dropCR_other (l : list byte) :
  (forall l', l <> l' ++ [CR]) -> bufio.dropCR l = l.
Proof.
  intros Hl. unfold bufio.dropCR.
  destruct l as [|x l] using rev_ind; [reflexivity|].
  rewrite last_last.
  destruct (Byte.eqb x CR) eqn:E.
  - apply byte_eqb_eq in E. subst. exfalso. apply (Hl l). reflexivity.
  - rewrite andb_false_r. reflexivity.
Qed.

(** Dropping one carriage return first does not change what [ReadLine]'s
    trim gives. *)
Lemma TrimRight_dropCR (l : list byte) :
  strings.TrimRight (bufio.dropCR l) CRLF = strings.TrimRight l CRLF.
Proof.
  destruct l as [|x l _] using rev_ind; [reflexivity|].
  destruct (Byte.byte_eq_dec x CR) as [->|Hne].
  - rewrite dropCR_snoc_CR. symmetry. apply TrimRight_snoc_cut.
    left. reflexivity.
  - rewrite dropCR_other; [reflexivity|].
    intros l' E. apply app_inj_tail in E. destruct E as [_ ->]. congruence.
Qed.

(** ** One turn of the scanner's loop, over any reader *)

Section Turns.
Context {R : Type} `{io.Reader R}.
Import bufio.

Lemma wf_NewScanner (rd : R) : wf (NewScanner rd).
Proof. unfold wf, end_. simpl. repeat split; try reflexivity; vm_compute; congruence. Qed.

(** A full line is in the window: it is the token. *)
Lemma turn_line (s : Scanner R) (line rest : list byte) :
  data s = line ++ LF :: rest -> ~ In LF line ->
  scan_turn s
  = Return true
      (set_empties 0
         (set_tok (Some (dropCR line))
            (set_start (start s + (len line + 1)) (set_data rest s)))).
Proof.
  destruct s as [rd M tk L st d er em dn]. simpl. intros -> Hn.
  pose proof (len_nonneg line) as Hl. pose proof (len_nonneg rest) as Hr.
  unfold scan_turn, try_token, advance, end_. simpl.
  rewrite len_app, len_cons.
  destruct (Z.ltb_spec st (st + (len line + (len rest + 1)))); [|lia].
  simpl. rewrite ScanLines_line by assumption.
  destruct (Z.ltb_spec (len line + 1) 0); [lia|].
  destruct (Z.ltb_spec (st + (len line + (len rest + 1)) - st) (len line + 1));
    [lia|].
  simpl.
  destruct (Z.ltb_spec 0 (len line + 1)); [|lia].
  rewrite orb_true_r.
  replace (len line + 1) with (len (line ++ [LF]))
    by (rewrite len_app; reflexivity).
  replace (line ++ LF :: rest) with ((line ++ [LF]) ++ rest)
    by (rewrite <- app_assoc; reflexivity).
  rewrite skipn_len_app. reflexivity.
Qed.

(** After an error, what is left in the window is the last token. *)
Lemma turn_final (s : Scanner R) (e : error) :
  err s = Some e -> data s <> [] -> ~ In LF (data s) ->
  scan_turn s
  = Return true
      (set_empties 0
         (set_tok (Some (dropCR (data s)))
            (set_start (start s + len (data s)) (set_data [] s)))).
Proof.
  destruct s as [rd M tk L st d er em dn]. simpl. intros -> Hne Hn.
  pose proof (len_pos d Hne) as Hl.
  unfold scan_turn, try_token, advance, end_. simpl.
  rewrite orb_true_r, ScanLines_final by assumption.
  destruct (Z.ltb_spec (len d) 0); [lia|].
  destruct (Z.ltb_spec (st + len d - st) (len d)); [lia|].
  simpl. destruct (Z.ltb_spec 0 (len d)); [|lia].
  replace (skipn (Z.to_nat (len d)) d) with (@nil byte); [reflexivity|].
  unfold len. rewrite Nat2Z.id, skipn_all. reflexivity.
Qed.

(** After an error, with an empty window: the scanner has stopped. *)
Lemma turn_stopped (s : Scanner R) (e : error) :
  err s = Some e -> data s = [] ->
  scan_turn s = Return false (set_start 0 (set_data [] (set_tok None s))).
Proof.
  destruct s as [rd M tk L st d er em dn]. simpl. intros -> ->.
  unfold scan_turn, try_token, advance, end_. simpl.
  rewrite orb_true_r. simpl. rewrite !len_nil.
  destruct (Z.ltb_spec (st + 0 - st) 0); [lia|].
  simpl. reflexivity.
Qed.

(** No token and no error: the turn goes to its second half. *)
Lemma turn_no_token (s : Scanner R) :
  err s = None -> ~ In LF (data s) ->
  scan_turn s = fill s \/ scan_turn s = fill (set_tok None s).
Proof.
  destruct s as [rd M tk L st d er em dn]. simpl. intros -> Hn.
  unfold scan_turn, try_token, advance, end_. simpl.
  destruct (Z.ltb_spec st (st + len d)); simpl; [|left; reflexivity].
  rewrite ScanLines_more by assumption. simpl.
  destruct (Z.ltb_spec (st + len d - st) 0); [lia|]. simpl.
  right. replace (st + 0) with st by lia. reflexivity.
Qed.

(** A window that fills a buffer of the greatest size cannot grow. *)
Lemma fill_too_long (s : Scanner R) :
  wf s -> err s = None -> len (data s) = maxTokenSize s ->
  fill s = Return false (set_err (Some ErrTooLong) s) /\ start s = 0.
Proof.
  destruct s as [rd M tk L st d er em dn]. unfold wf, end_. simpl.
  intros (Hst & Hend & HL & _ & _) -> Hlen.
  assert (st = 0) by lia. assert (L = M) by lia. subst st L.
  unfold fill, end_. simpl.
  rewrite Hlen, Z.eqb_refl, Z.leb_refl. simpl. split; reflexivity.
Qed.

(** No newline in a window that fills a buffer of the greatest size. *)
Lemma turn_too_long (s : Scanner R) :
  wf s -> err s = None -> ~ In LF (data s) ->
  len (data s) = maxTokenSize s ->
  exists tk,
    scan_turn s = Return false (set_err (Some ErrTooLong) (set_tok tk s))
    /\ start s = 0.
Proof.
  intros Hwf He Hn Hlen.
  destruct (turn_no_token s He Hn) as [-> | ->].
  - exists (tok s). destruct (fill_too_long s Hwf He Hlen) as [-> Hst].
    split; [destruct s; reflexivity | exact Hst].
  - exists None. destruct (fill_too_long (set_tok None s)) as [-> Hst];
      [exact Hwf | exact He | exact Hlen |].
    split; [reflexivity | exact Hst].
Qed.

(** What a round of reads does to a scanner that has no error yet. *)
Lemma read_loop_grows (k : nat) (s : Scanner R) :
  err s = None -> end_ s <= buf_len s ->
  maxTokenSize (read_loop k s) = maxTokenSize s
  /\ buf_len (read_loop k s) = buf_len s
  /\ start (read_loop k s) = start s
  /\ done (read_loop k s) = done s
  /\ end_ (read_loop k s) <= buf_len s
  /\ (err (read_loop k s) = None -> len (data s) < len (data (read_loop k s))).
Proof.
  revert s. induction k as [|k IH]; intros s He Hend; simpl;
    destruct (io.Read (r s) (buf_len s - end_ s)) as [[bs e] rd];
    destruct s as [rd0 M tk L st d er em dn]; unfold end_ in *; simpl in *;
    subst er; pose proof (len_nonneg bs) as Hbs;
    (destruct (Z.ltb_spec (len bs) 0); [lia|]);
    (destruct (Z.ltb_spec (L - (st + len d)) (len bs)); simpl;
     [ repeat split; try reflexivity; try assumption; discriminate |]);
    (destruct e as [e|]; simpl;
     [ rewrite len_app; repeat split; try reflexivity; try lia; discriminate |]);
    (destruct (Z.ltb_spec 0 (len bs)); simpl;
     [ rewrite len_app; repeat split; try reflexivity; lia |]).
  - rewrite len_app. repeat split; try reflexivity; try lia; discriminate.
  - assert (bs = []) as -> by (apply len_zero_nil; lia).
    rewrite app_nil_r.
    specialize (IH (mkScanner rd M tk L st d None em dn) eq_refl Hend).
    exact IH.
Qed.

(** Without error and with room left under [maxTokenSize], the turn goes
    on to read; [s'] is the scanner once room was made. *)
Lemma fill_reads (s : Scanner R) :
  wf s -> err s = None -> len (data s) < maxTokenSize s ->
  exists s',
    fill s = Continue (read_loop maxConsecutiveEmptyReads s')
    /\ wf s' /\ end_ s' < buf_len s'
    /\ r s' = r s /\ data s' = data s /\ err s' = None
    /\ tok s' = tok s /\ maxTokenSize s' = maxTokenSize s.
Proof.
  intros Hwf He Hlen. unfold fill. rewrite He. cbn [is_nil negb]. cbv zeta.
  set (s2 := if (0 <? start s)
                && ((end_ s =? buf_len s) || (Z.quot (buf_len s) 2 <? start s))
             then set_start 0 s else s).
  assert (Hs2 : wf s2 /\ r s2 = r s /\ data s2 = data s /\ err s2 = None
                /\ tok s2 = tok s /\ maxTokenSize s2 = maxTokenSize s
                /\ (end_ s2 = buf_len s2 -> start s2 = 0)).
  { subst s2. destruct s as [rd M tk L st d er em dn].
    unfold wf, end_ in *. simpl in *. pose proof (len_nonneg d).
    destruct (Z.ltb_spec 0 st); destruct (Z.eqb_spec (st + len d) L);
      destruct (Z.ltb_spec (Z.quot L 2) st); simpl;
      repeat split; try tauto; try lia. }
  clearbody s2.
  destruct Hs2 as (Hwf2 & Hr2 & Hd2 & He2 & Htk2 & HM2 & Hfull).
  assert (Hbounds : 0 <= start s2 /\ end_ s2 <= buf_len s2
                    /\ buf_len s2 <= maxTokenSize s2
                    /\ maxTokenSize s2 <= Z.quot maxInt 2
                    /\ end_ s2 = start s2 + len (data s2))
    by (unfold wf in Hwf2; unfold end_ in *; tauto).
  pose proof (len_nonneg (data s2)) as Hd.
  assert (Hlen2 : len (data s2) < maxTokenSize s2) by (rewrite Hd2, HM2; exact Hlen).
  destruct (Z.eqb_spec (end_ s2) (buf_len s2)) as [Heq|Hne].
  - specialize (Hfull Heq).
    destruct (Z.leb_spec (maxTokenSize s2) (buf_len s2)); [lia|].
    destruct (Z.ltb_spec (Z.quot maxInt 2) (buf_len s2)); [lia|].
    cbn [orb]. eexists. split; [reflexivity|].
    destruct s2 as [rd M tk L st d er em dn].
    unfold wf, end_ in *. simpl in *.
    destruct (Z.eqb_spec (L * 2) 0); unfold startBufSize;
      repeat split; try tauto; try lia.
  - exists s2. split; [reflexivity|].
    unfold wf in *. repeat split; try tauto; try lia.
Qed.

Lemma turn_reads (s : Scanner R) :
  wf s -> err s = None -> ~ In LF (data s) ->
  len (data s) < maxTokenSize s ->
  exists s',
    scan_turn s = Continue (read_loop maxConsecutiveEmptyReads s')
    /\ wf s' /\ end_ s' < buf_len s'
    /\ r s' = r s /\ data s' = data s /\ err s' = None
    /\ maxTokenSize s' = maxTokenSize s.
Proof.
  intros Hwf He Hn Hlen.
  pose proof (turn_no_token s He Hn) as Hcase.
  destruct Hcase as [-> | ->].
  - destruct (fill_reads s Hwf He Hlen) as (s' & E & ? & ? & ? & ? & ? & ? & ?).
    exists s'. tauto.
  - destruct (fill_reads (set_tok None s)) as (s' & E & ? & ? & ? & ? & ? & ? & ?);
      [exact Hwf | exact He | exact Hlen |].
    exists s'. tauto.
Qed.

(** Every turn from a state of the code either returns (and a [false]
    leaves an error behind, over an empty window unless the token was too
    long), or goes on with a longer window or an error; none panics. *)
Lemma scan_turn_cases (s : Scanner R) :
  wf s ->
  match scan_turn s with
  | Return b s1 =>
      wf s1 /\ maxTokenSize s1 = maxTokenSize s
      /\ (b = false ->
          (data s1 = [] /\ exists e, err s1 = Some e)
          \/ err s1 = Some ErrTooLong)
  | Continue s1 =>
      wf s1 /\ maxTokenSize s1 = maxTokenSize s /\ err s = None
      /\ (err s1 = None -> len (data s) < len (data s1))
  | Panics _ => False
  end.
Proof.
  intros Hwf.
  destruct (in_dec Byte.byte_eq_dec LF (data s)) as [Hin|Hn].
  - destruct (first_split LF (data s) Hin) as (line & rest & Hd & Hline).
    rewrite (turn_line s line rest Hd Hline).
    destruct s as [rd M tk L st d er em dn]. unfold wf, end_ in *.
    simpl in *. subst d. rewrite len_app, len_cons in Hwf.
    pose proof (len_nonneg line). pose proof (len_nonneg rest).
    repeat split; try lia; try tauto; try discriminate.
  - destruct (err s) as [e|] eqn:He.
    + destruct (data s) as [|c d'] eqn:Hd.
      * rewrite (turn_stopped s e He Hd).
        destruct s as [rd M tk L st d er em dn]. unfold wf, end_ in *.
        simpl in *. subst. simpl in *.
        repeat split; try lia; try tauto.
        intros _. left. split; [reflexivity | exists e; reflexivity].
      * assert (Hne : data s <> []) by (rewrite Hd; discriminate).
        rewrite <- Hd in Hn. rewrite (turn_final s e He Hne Hn).
        destruct s as [rd M tk L st d er em dn]. unfold wf, end_ in *.
        simpl in *. rewrite ?len_nil. pose proof (len_nonneg d).
        change (len (@nil byte)) with 0.
        repeat split; try lia; try tauto; try discriminate.
    + assert (Hle : len (data s) <= maxTokenSize s).
      { destruct s as [rd M tk L st d er em dn]. unfold wf, end_ in *.
        simpl in *. lia. }
      destruct (Z.eq_dec (len (data s)) (maxTokenSize s)) as [Heq|Hneq].
      * destruct (turn_too_long s Hwf He Hn Heq) as (tk' & -> & _).
        destruct s as [rd M tk L st d er em dn]. unfold wf, end_ in *.
        simpl in *. repeat split; try lia; try tauto.
      * destruct (turn_reads s Hwf He Hn) as (s' & -> & Hwf' & Hroom & _ & Hd' & He' & HM');
          [lia|].
        assert (Hend' : end_ s' <= buf_len s') by lia.
        destruct (read_loop_grows maxConsecutiveEmptyReads s' He' Hend')
          as (E1 & E2 & E3 & E4 & E5 & E6).
        unfold wf in *. rewrite E1, E2, E3, E4, <- Hd', <- HM'.
        repeat split; try tauto; try exact E6.
Qed.

(** The loop of [Scan] returns within the turns counted by its window. *)
Lemma scan_loop_returns (fuel : nat) (s : Scanner R) :
  wf s ->
  (0 < fuel)%nat ->
  (err s = None -> maxTokenSize s - len (data s) + 1 < Z.of_nat fuel) ->
  exists b s1,
    scan_loop fuel s = Ok (b, s1)
    /\ wf s1 /\ maxTokenSize s1 = maxTokenSize s
    /\ (b = false ->
        (data s1 = [] /\ exists e, err s1 = Some e)
        \/ err s1 = Some ErrTooLong).
Proof.
  revert s. induction fuel as [|fuel IH]; intros s Hwf Hpos Hfuel; [lia|].
  simpl. pose proof (scan_turn_cases s Hwf) as Hc.
  destruct (scan_turn s) as [b s1|s1|msg]; [| |contradiction].
  - exists b, s1. split; [reflexivity | exact Hc].
  - destruct Hc as (Hwf1 & HM & He & Hgrow).
    assert (Hle : len (data s1) <= maxTokenSize s1).
    { destruct s1 as [rd M tk L st d er em dn]. unfold wf, end_ in *.
      simpl in *. lia. }
    specialize (Hfuel He).
    destruct (IH s1 Hwf1) as (b & s2 & E & Hwf2 & HM2 & Hf).
    + destruct (err s1) eqn:He1.
      * pose proof (len_nonneg (data s1)).
        assert (len (data s) <= maxTokenSize s).
        { destruct s as [rd M tk L st d er em dn]. unfold wf, end_ in *.
          simpl in *. lia. }
        lia.
      * specialize (Hgrow eq_refl). lia.
    + intros He1. specialize (Hgrow He1). lia.
    + exists b, s2. split; [exact E|]. split; [exact Hwf2|].
      split; [congruence | exact Hf].
Qed.

(** [Scan] returns: no panic, and the loop bound of the model is never
    reached. *)
Lemma Scan_returns (s : Scanner R) :
  wf s ->
  exists b s1,
    Scan s = Ok (b, s1)
    /\ wf s1 /\ maxTokenSize s1 = maxTokenSize s
    /\ (b = false ->
        (data s1 = [] /\ exists e, err s1 = Some e)
        \/ err s1 = Some ErrTooLong).
Proof.
  intros Hwf. unfold Scan.
  assert (Hdn : done s = false) by (unfold wf in Hwf; tauto).
  rewrite Hdn.
  assert (HM : 0 <= maxTokenSize s).
  { destruct s as [rd M tk L st d er em dn]. unfold wf, end_ in *.
    simpl in *. pose proof (len_nonneg d). lia. }
  apply scan_loop_returns; unfold scan_fuel; [exact Hwf | lia |].
  intros _. pose proof (len_nonneg (data s)). lia.
Qed.

(** A stopped scanner stays stopped. *)
Lemma Scan_stopped (s : Scanner R) (e : error) :
  wf s -> err s = Some e -> data s = [] ->
  Scan s = Ok (false, set_start 0 (set_data [] (set_tok None s))).
Proof.
  intros Hwf He Hd. unfold Scan.
  assert (Hdn : done s = false) by (unfold wf in Hwf; tauto).
  rewrite Hdn.
  assert (HM : 0 <= maxTokenSize s).
  { destruct s as [rd M tk L st d er em dn]. unfold wf, end_ in *.
    simpl in *. pose proof (len_nonneg d). lia. }
  unfold scan_fuel.
  destruct (Z.to_nat (maxTokenSize s + 2)) as [|fuel] eqn:Hf; [lia|].
  simpl. rewrite (turn_stopped s e He Hd). reflexivity.
Qed.

End Turns.

(** ** The scanner over a script *)

Section ScriptScan.
Import bufio.

Lemma delivers_from_error (k : nat) (bs : list byte) (e : error)
      (rd : Script) :
  delivers_from k ((bs, Some e) :: rd) = (bs, e).
Proof. destruct bs; reflexivity. Qed.

Lemma delivers_from_data (k : nat) (bs : list byte) (rd : Script) :
  bs <> [] ->
  delivers_from k ((bs, None) :: rd)
  = (bs ++ fst (delivers rd), snd (delivers rd)).
Proof.
  destruct bs; [congruence|]. intros _. simpl. unfold delivers.
  destruct (delivers_from maxConsecutiveEmptyReads rd). reflexivity.
Qed.

(** A round of reads over a script: either some bytes arrive and the
    script goes on, or everything left arrives with the error. *)
Lemma read_loop_script (rd : Script) :
  forall (k : nat) (s : Scanner Script) (str : list byte) (e : error),
    r s = rd -> err s = None -> end_ s < buf_len s ->
    delivers_from k rd = (str, e) ->
    (err (read_loop k s) = None
     /\ exists bs str',
         data (read_loop k s) = data s ++ bs
         /\ delivers (r (read_loop k s)) = (str', e)
         /\ str = bs ++ str')
    \/ (err (read_loop k s) = Some e /\ data (read_loop k s) = data s ++ str).
Proof.
  induction rd as [|[bs oe] rd IH]; intros k s str e Hr He Hroom Hdel.
  - (* the script ran out: io.EOF *)
    simpl in Hdel. injection Hdel as <- <-. right.
    destruct s as [rd0 M tk L st d er em dn]. unfold end_ in *. simpl in *.
    subst rd0 er.
    destruct k; simpl; unfold end_; simpl; rewrite len_nil;
      (destruct (Z.ltb_spec 0 0); [lia|]);
      (destruct (Z.ltb_spec (L - (st + len d)) 0); [lia|]);
      simpl; split; reflexivity.
  - destruct s as [rd0 M tk L st d er em dn]. unfold end_ in *.
    simpl in Hr, He, Hroom. subst rd0 er.
    pose proof (len_nonneg bs) as Hbs. pose proof (len_nonneg d) as Hd.
    assert (Hstep : forall k',
      read_loop k' (mkScanner ((bs, oe) :: rd) M tk L st d None em dn)
      = let '(bs1, e1, rd1) :=
            if len bs <=? L - (st + len d) then (bs, oe, rd)
            else (firstn (Z.to_nat (L - (st + len d))) bs, None,
                  (skipn (Z.to_nat (L - (st + len d))) bs, oe) :: rd) in
        if (len bs1 <? 0) || (L - (st + len d) <? len bs1)
        then mkScanner rd1 M tk L st d (Some ErrBadReadCount) em dn
        else match e1 with
             | Some e1 => mkScanner rd1 M tk L st (d ++ bs1) (Some e1) em dn
             | None =>
                 if 0 <? len bs1
                 then mkScanner rd1 M tk L st (d ++ bs1) None 0 dn
                 else match k' with
                      | O => mkScanner rd1 M tk L st (d ++ bs1)
                               (Some ErrNoProgress) em dn
                      | S k'' => read_loop k''
                                   (mkScanner rd1 M tk L st (d ++ bs1) None em dn)
                      end
             end).
    { intros k'. destruct k'; simpl; unfold end_; simpl;
        destruct (len bs <=? L - (st + len d)); simpl;
        repeat (match goal with
                | |- context [if ?b then _ else _] => destruct b; simpl
                | |- context [match ?o with Some _ => _ | None => _ end] =>
                    destruct o; simpl
                end); reflexivity. }
    rewrite Hstep. clear Hstep.
    destruct (Z.leb_spec (len bs) (L - (st + len d))) as [Hfit|Hcut].
    + (* the bytes at the head fit *)
      destruct (Z.ltb_spec (len bs) 0); [lia|].
      destruct (Z.ltb_spec (L - (st + len d)) (len bs)); [lia|].
      cbn [orb].
      destruct oe as [e1|].
      * rewrite delivers_from_error in Hdel. injection Hdel as <- <-.
        right. simpl. split; reflexivity.
      * destruct (Z.ltb_spec 0 (len bs)) as [Hpos|Hzero].
        -- assert (Hne : bs <> [])
             by (intros ->; change (len (@nil byte)) with 0 in Hpos; lia).
           rewrite (delivers_from_data k bs rd Hne) in Hdel.
           injection Hdel as <- <-.
           left. simpl. split; [reflexivity|].
           exists bs, (fst (delivers rd)). split; [reflexivity|].
           split; [destruct (delivers rd); reflexivity | reflexivity].
        -- assert (bs = []) as -> by (apply len_zero_nil; lia).
           destruct k as [|k]; simpl in Hdel.
           ++ injection Hdel as <- <-. right. simpl. split; reflexivity.
           ++ rewrite app_nil_r.
              apply (IH k (mkScanner rd M tk L st d None em dn) str e);
                unfold end_; simpl; auto.
    + (* only a part fits *)
      set (cap := L - (st + len d)) in *.
      assert (Hcap : len (firstn (Z.to_nat cap) bs) = cap).
      { unfold len in *. rewrite length_firstn. lia. }
      rewrite Hcap.
      destruct (Z.ltb_spec cap 0); [lia|].
      destruct (Z.ltb_spec cap cap); [lia|]. cbn [orb].
      destruct (Z.ltb_spec 0 cap); [|lia].
      left.
      assert (Hrest : skipn (Z.to_nat cap) bs <> []).
      { intros E. apply (f_equal (@length byte)) in E.
        rewrite length_skipn in E. unfold len in *. simpl in E. lia. }
      assert (Hbsne : bs <> [])
        by (intros ->; change (len (@nil byte)) with 0 in Hcut; lia).
      split; [reflexivity|].
      exists (firstn (Z.to_nat cap) bs).
      cbn [r data]. unfold delivers.
      destruct oe as [e1|].
      * rewrite delivers_from_error in Hdel. injection Hdel as <- <-.
        exists (skipn (Z.to_nat cap) bs). split; [reflexivity|].
        split; [apply delivers_from_error|].
        symmetry. apply firstn_skipn.
      * rewrite (delivers_from_data k bs rd Hbsne) in Hdel.
        injection Hdel as <- <-.
        exists (skipn (Z.to_nat cap) bs ++ fst (delivers rd)).
        split; [reflexivity|].
        split; [apply delivers_from_data; exact Hrest|].
        rewrite app_assoc, firstn_skipn. reflexivity.
Qed.

(** A turn that has to read, over a script: the input still pending is the
    same, and the window has grown unless the error arrived. *)
Lemma turn_script (s : Scanner Script) (input : list byte) (e : error) :
  pending s input e -> err s = None -> ~ In LF (data s) ->
  len (data s) < maxTokenSize s ->
  exists s1,
    scan_turn s = Continue s1
    /\ pending s1 input e
    /\ maxTokenSize s1 = maxTokenSize s
    /\ (err s1 = None -> len (data s) < len (data s1)).
Proof.
  intros [Hwf Hp] He Hn Hlen.
  destruct Hp as [(_ & str & Hdel & Hin) | (He' & _)]; [|congruence].
  destruct (turn_reads s Hwf He Hn Hlen)
    as (s' & Hturn & Hwf' & Hroom & Hr' & Hd' & He1 & HM').
  assert (Hend' : end_ s' <= buf_len s') by lia.
  destruct (read_loop_grows maxConsecutiveEmptyReads s' He1 Hend')
    as (E1 & E2 & E3 & E4 & E5 & E6).
  set (s1 := read_loop maxConsecutiveEmptyReads s') in *.
  assert (Hwf1 : wf s1).
  { unfold wf in *. rewrite E1, E2, E3, E4. tauto. }
  exists s1. split; [exact Hturn|]. split; [|split].
  - split; [exact Hwf1|].
    rewrite <- Hr' in Hdel.
    destruct (read_loop_script (r s') maxConsecutiveEmptyReads s' str e
                eq_refl He1 Hroom Hdel)
      as [(Hn1 & bs & str' & Hd1 & Hdel1 & Hstr) | (He2 & Hd2)].
    + left. split; [exact Hn1|].
      exists str'. split; [exact Hdel1|].
      fold s1 in Hd1. rewrite Hd1, Hd', <- app_assoc, <- Hstr. exact Hin.
    + right. split; [exact He2|]. fold s1 in Hd2. rewrite Hd2, Hd'.
      symmetry. exact Hin.
  - congruence.
  - rewrite <- Hd'. exact E6.
Qed.

Lemma enough_next (fuel : nat) (s s1 : Scanner Script) :
  wf s1 -> enough (S fuel) s -> err s = None ->
  len (data s) < maxTokenSize s ->
  maxTokenSize s1 = maxTokenSize s ->
  (err s1 = None -> len (data s) < len (data s1)) ->
  enough fuel s1.
Proof.
  intros Hwf1 [_ Hf] He Hlen HM Hgrow. specialize (Hf He).
  pose proof (len_nonneg (data s)). split; [lia|].
  intros He1. specialize (Hgrow He1). lia.
Qed.

Lemma enough_scan_fuel (s : Scanner Script) : wf s -> enough (scan_fuel s) s.
Proof.
  intros Hwf. unfold enough, scan_fuel.
  assert (HM : 0 <= maxTokenSize s).
  { destruct s as [rd M tk L st d er em dn]. unfold wf, end_ in *.
    simpl in *. pose proof (len_nonneg d). lia. }
  pose proof (len_nonneg (data s)). split; [lia|]. intros _. lia.
Qed.

(** The pending input starts with a full line: the loop returns it. *)
Lemma scan_loop_line (fuel : nat) :
  forall (s : Scanner Script) (e : error) (line rest : list byte),
    pending s (line ++ LF :: rest) e -> ~ In LF line ->
    (err s = None -> len line < maxTokenSize s) -> enough fuel s ->
    exists s1,
      scan_loop fuel s = Ok (true, s1)
      /\ tok s1 = Some (dropCR line)
      /\ pending s1 rest e
      /\ maxTokenSize s1 = maxTokenSize s.
Proof.
  induction fuel as [|fuel IH]; intros s e line rest Hp Hline Hlen Hfuel;
    [destruct Hfuel; lia|].
  pose proof Hp as [Hwf Hcases].
  destruct (in_dec Byte.byte_eq_dec LF (data s)) as [Hin|Hn].
  - (* the line is in the window *)
    assert (Hcut : exists rest', data s = line ++ LF :: rest'
              /\ ((err s = None
                   /\ exists str, delivers (r s) = (str, e)
                                  /\ rest = rest' ++ str)
                  \/ (err s = Some e /\ rest' = rest))).
    { destruct Hcases as [(He & str & Hdel & Heq) | (He & Heq)].
      - symmetry in Heq.
        destruct (line_inside LF (data s) str line rest Heq Hline Hin)
          as (rest' & Hd & Hrest).
        exists rest'. split; [exact Hd|]. left. split; [exact He|].
        exists str. split; [exact Hdel | exact Hrest].
      - exists rest. split; [exact Heq|]. right. split; [exact He | reflexivity]. }
    destruct Hcut as (rest' & Hd & Hrest).
    pose proof (scan_turn_cases s Hwf) as Hc.
    simpl. rewrite (turn_line s line rest' Hd Hline) in *.
    destruct Hc as (Hwf1 & HM1 & _).
    eexists. split; [reflexivity|]. split; [reflexivity|].
    split; [|exact HM1]. split; [exact Hwf1|].
    destruct s as [rd M tk L st d er em dn]. simpl in *.
    destruct Hrest as [(He & str & Hdel & Heq) | (He & Heq)].
    + left. split; [exact He|].
      exists str. split; [exact Hdel | exact Heq].
    + right. split; [exact He | exact Heq].
  - (* more input is needed *)
    destruct Hcases as [(He & str & Hdel & Heq) | (He & Heq)].
    + symmetry in Heq.
      destruct (prefix_before_first LF (data s) str line rest Heq Hn)
        as (m & Hm & _).
      specialize (Hlen He).
      assert (Hshort : len (data s) < maxTokenSize s).
      { rewrite Hm, len_app in Hlen. pose proof (len_nonneg m). lia. }
      destruct (turn_script s _ e Hp He Hn Hshort)
        as (s1 & Hturn & Hp1 & HM1 & Hgrow).
      simpl. rewrite Hturn.
      destruct (IH s1 e line rest Hp1 Hline) as (s2 & E & Htok & Hp2 & HM2).
      * intros _. rewrite HM1. exact Hlen.
      * apply (enough_next fuel s s1); try assumption. apply Hp1.
      * exists s2. split; [exact E|]. split; [exact Htok|].
        split; [exact Hp2 | congruence].
    + exfalso. apply Hn. rewrite Heq. apply in_or_app. right. left. reflexivity.
Qed.

(** What is pending is a last line without its newline. *)
Lemma scan_loop_final (fuel : nat) :
  forall (s : Scanner Script) (e : error) (line : list byte),
    pending s line e -> line <> [] -> ~ In LF line ->
    (err s = None -> len line < maxTokenSize s) -> enough fuel s ->
    exists s1,
      scan_loop fuel s = Ok (true, s1)
      /\ tok s1 = Some (dropCR line)
      /\ pending s1 [] e
      /\ maxTokenSize s1 = maxTokenSize s.
Proof.
  induction fuel as [|fuel IH]; intros s e line Hp Hne Hline Hlen Hfuel;
    [destruct Hfuel; lia|].
  pose proof Hp as [Hwf Hcases].
  destruct Hcases as [(He & str & Hdel & Heq) | (He & Heq)].
  - specialize (Hlen He).
    assert (Hn : ~ In LF (data s)).
    { intros Hin. apply Hline. rewrite Heq. apply in_or_app. left. exact Hin. }
    assert (Hshort : len (data s) < maxTokenSize s).
    { rewrite Heq, len_app in Hlen. pose proof (len_nonneg str). lia. }
    destruct (turn_script s _ e Hp He Hn Hshort)
      as (s1 & Hturn & Hp1 & HM1 & Hgrow).
    simpl. rewrite Hturn.
    destruct (IH s1 e line Hp1 Hne Hline) as (s2 & E & Htok & Hp2 & HM2).
    + intros _. rewrite HM1. exact Hlen.
    + apply (enough_next fuel s s1); try assumption. apply Hp1.
    + exists s2. split; [exact E|]. split; [exact Htok|].
      split; [exact Hp2 | congruence].
  - assert (Hne' : data s <> []) by (rewrite Heq; exact Hne).
    assert (Hn : ~ In LF (data s)) by (rewrite Heq; exact Hline).
    pose proof (scan_turn_cases s Hwf) as Hc.
    simpl. rewrite (turn_final s e He Hne' Hn) in *.
    destruct Hc as (Hwf1 & HM1 & _).
    eexists. split; [reflexivity|]. split; [simpl; rewrite Heq; reflexivity|].
    split; [|exact HM1]. split; [exact Hwf1|].
    right. split; [exact He | reflexivity].
Qed.

(** Nothing is pending: the loop stops with the error of the script. *)
Lemma scan_loop_end (fuel : nat) :
  forall (s : Scanner Script) (e : error),
    pending s [] e -> 0 < maxTokenSize s -> enough fuel s ->
    exists s1,
      scan_loop fuel s = Ok (false, s1)
      /\ err s1 = Some e /\ data s1 = []
      /\ pending s1 [] e
      /\ maxTokenSize s1 = maxTokenSize s.
Proof.
  induction fuel as [|fuel IH]; intros s e Hp HM Hfuel;
    [destruct Hfuel; lia|].
  pose proof Hp as [Hwf Hcases].
  destruct Hcases as [(He & str & Hdel & Heq) | (He & Heq)].
  - symmetry in Heq. apply app_eq_nil in Heq. destruct Heq as [Hd _].
    assert (Hn : ~ In LF (data s)) by (rewrite Hd; intros []).
    assert (Hshort : len (data s) < maxTokenSize s) by (rewrite Hd; exact HM).
    destruct (turn_script s _ e Hp He Hn Hshort)
      as (s1 & Hturn & Hp1 & HM1 & Hgrow).
    simpl. rewrite Hturn.
    destruct (IH s1 e Hp1) as (s2 & E & He2 & Hd2 & Hp2 & HM2).
    + rewrite HM1. exact HM.
    + apply (enough_next fuel s s1); try assumption. apply Hp1.
    + exists s2. repeat split; try assumption; try apply Hp2. congruence.
  - pose proof (scan_turn_cases s Hwf) as Hc.
    simpl. rewrite (turn_stopped s e He Heq) in *.
    destruct Hc as (Hwf1 & HM1 & _).
    eexists. split; [reflexivity|]. split; [exact He|].
    split; [reflexivity|]. split; [|exact HM1]. split; [exact Hwf1|].
    right. split; [exact He | reflexivity].
Qed.

(** More than [maxTokenSize] bytes are pending and no newline is among the
    first [maxTokenSize]: the loop fills the buffer and gives up. *)
Lemma scan_loop_too_long (fuel : nat) :
  forall (s : Scanner Script) (e : error) (input : list byte),
    pending s input e -> err s = None ->
    maxTokenSize s < len input ->
    ~ In LF (firstn (Z.to_nat (maxTokenSize s)) input) ->
    enough fuel s ->
    exists s1,
      scan_loop fuel s = Ok (false, s1)
      /\ err s1 = Some ErrTooLong
      /\ data s1 = firstn (Z.to_nat (maxTokenSize s)) input
      /\ wf s1
      /\ maxTokenSize s1 = maxTokenSize s.
Proof.
  induction fuel as [|fuel IH]; intros s e input Hp He Hlong Hline Hfuel;
    [destruct Hfuel; lia|].
  pose proof Hp as [Hwf Hcases].
  destruct Hcases as [(_ & str & Hdel & Heq) | (He' & _)]; [|congruence].
  assert (Hle : len (data s) <= maxTokenSize s).
  { destruct s as [rd M tk L st d er em dn]. unfold wf, end_ in *.
    simpl in *. lia. }
  assert (Hpre : firstn (Z.to_nat (maxTokenSize s)) input
                 = data s ++ firstn (Z.to_nat (maxTokenSize s)
                                     - length (data s)) str).
  { rewrite Heq, firstn_app. f_equal. apply firstn_all2.
    unfold len in Hle. lia. }
  assert (Hn : ~ In LF (data s)).
  { intros Hin. apply Hline. rewrite Hpre. apply in_or_app. left. exact Hin. }
  destruct (Z.eq_dec (len (data s)) (maxTokenSize s)) as [Hfull|Hnot].
  - destruct (turn_too_long s Hwf He Hn Hfull) as (tk' & Hturn & _).
    pose proof (scan_turn_cases s Hwf) as Hc.
    simpl. rewrite Hturn in *. destruct Hc as (Hwf1 & HM1 & _).
    eexists. split; [reflexivity|].
    split; [destruct s; simpl in *; subst; reflexivity|].
    split; [|split; [exact Hwf1 | exact HM1]].
    rewrite Hpre. replace (Z.to_nat (maxTokenSize s) - length (data s))%nat
      with 0%nat by (unfold len in Hfull; lia).
    simpl. rewrite app_nil_r. destruct s; reflexivity.
  - assert (Hshort : len (data s) < maxTokenSize s) by lia.
    destruct (turn_script s _ e Hp He Hn Hshort)
      as (s1 & Hturn & Hp1 & HM1 & Hgrow).
    simpl. rewrite Hturn.
    assert (He1 : err s1 = None).
    { destruct Hp1 as [Hwf1 [(He1 & _) | (He1 & Hd1)]]; [exact He1|].
      exfalso.
      assert (len (data s1) <= maxTokenSize s1).
      { destruct s1 as [rd M tk L st d er em dn]. unfold wf, end_ in *.
        simpl in *. lia. }
      rewrite Hd1, HM1 in *. lia. }
    destruct (IH s1 e input Hp1 He1) as (s2 & E & He2 & Hd2 & Hwf2 & HM2).
    + rewrite HM1. exact Hlong.
    + rewrite HM1. exact Hline.
    + apply (enough_next fuel s s1); try assumption. apply Hp1.
    + exists s2. split; [exact E|]. split; [exact He2|].
      split; [rewrite Hd2, HM1; reflexivity|]. split; [exact Hwf2 | congruence].
Qed.

End ScriptScan.

(** ** [ReadLine] over any reader *)

Section Terminal.
Context {R W : Type} `{io.Reader R} `{io.Writer W}.
Import bufio.

Lemma Scan_loop (sc : Scanner R) :
  wf sc -> Scan sc = scan_loop (scan_fuel sc) sc.
Proof.
  intros Hwf. unfold Scan.
  replace (done sc) with false by (unfold wf in Hwf; symmetry; tauto).
  reflexivity.
Qed.

(** The error [ReadLine] hands out when the scanner stopped on [e]. *)
Lemma Err_handed_out (sc : Scanner R) (e : error) :
  err sc = Some e ->
  match Err sc with
  | None => Some EOF
  | Some _ => Err sc
  end = Some e.
Proof. unfold Err. intros ->. destruct e; reflexivity. Qed.

(** [ReadLine] returns, keeps the scanner in a state of the code, and
    leaves the writer alone. *)
Lemma ReadLine_returns (f : FakeTerm R W) :
  wf (s f) ->
  exists line e f',
    ReadLine f = Ok (line, e, f') /\ wf (s f') /\ w f' = w f.
Proof.
  intros Hwf. unfold ReadLine.
  destruct (Scan_returns (s f) Hwf) as (b & s1 & -> & Hwf1 & _).
  destruct b.
  - eexists _, _, _. split; [reflexivity|]. split; [exact Hwf1 | reflexivity].
  - simpl. destruct (Err s1);
      eexists _, _, _; (split; [reflexivity|]); split;
      solve [exact Hwf1 | reflexivity].
Qed.

Lemma ReadLine_writer (f : FakeTerm R W) :
  match ReadLine f with
  | Ok (_, _, f') => w f' = w f
  | _ => True
  end.
Proof.
  unfold ReadLine. destruct (Scan (s f)) as [[[|] s1]| |]; try exact I.
  - reflexivity.
  - simpl. destruct (Err s1); reflexivity.
Qed.

(** Once the scanner stopped with an empty window, every [ReadLine] gives
    the same error. *)
Lemma ReadLine_stopped (f : FakeTerm R W) (e : error) :
  wf (s f) -> err (s f) = Some e -> data (s f) = [] ->
  exists f',
    ReadLine f = Ok ([], Some e, f')
    /\ wf (s f') /\ err (s f') = Some e /\ data (s f') = [].
Proof.
  intros Hwf He Hd. unfold ReadLine.
  rewrite (Scan_stopped (s f) e Hwf He Hd).
  set (s1 := set_start 0 (set_data [] (set_tok None (s f)))).
  assert (He1 : err s1 = Some e) by exact He.
  pose proof (Err_handed_out s1 e He1) as Hout.
  assert (Hwf1 : wf s1).
  { subst s1. destruct (s f) as [rd M tk L st d er em dn].
    unfold wf, end_ in *. simpl in *. subst d.
    change (len (@nil byte)) with 0 in *. repeat split; try tauto; lia. }
  simpl. destruct (Err s1) eqn:E.
  - rewrite Hout. eexists. split; [reflexivity|].
    split; [exact Hwf1|]. split; [exact He1 | reflexivity].
  - rewrite Hout. eexists. split; [reflexivity|].
    split; [exact Hwf1|]. split; [exact He1 | reflexivity].
Qed.

Lemma ReadLines_stopped (n : nat) :
  forall (f : FakeTerm R W) (e : error),
    wf (s f) -> err (s f) = Some e -> data (s f) = [] ->
    exists f', ReadLines n f = Ok (repeat ([], Some e) n, f').
Proof.
  induction n as [|n IH]; intros f e Hwf He Hd.
  - exists f. reflexivity.
  - destruct (ReadLine_stopped f e Hwf He Hd) as (f1 & E & Hwf1 & He1 & Hd1).
    destruct (IH f1 e Hwf1 He1 Hd1) as (f2 & E2).
    exists f2. simpl. rewrite E, E2. reflexivity.
Qed.

(** Every terminal a program can hold has its scanner in a state of the
    code. *)
Lemma reachable_wf (f : FakeTerm R W) : reachable f -> wf (s f).
Proof.
  induction 1 as [rd wr | f f' line e Hf IH E | f f' prompt line e Hf IH E
                  | f on Hf IH | f prompt Hf IH | f width height Hf IH
                  | f buf Hf IH]; try exact IH.
  - apply wf_NewScanner.
  - destruct (ReadLine_returns f IH) as (l1 & e1 & f1 & E1 & Hwf1 & _).
    rewrite E1 in E. injection E as _ _ <-. exact Hwf1.
  - unfold ReadPassword in E.
    destruct (ReadLine_returns f IH) as (l1 & e1 & f1 & E1 & Hwf1 & _).
    rewrite E1 in E. injection E as _ _ <-. exact Hwf1.
  - unfold Write. destruct (io.Write (w f) buf) as [[n e] w']. exact IH.
Qed.

Lemma ReadLines_app (n m : nat) :
  forall (f f1 f2 : FakeTerm R W) r1 r2,
    ReadLines n f = Ok (r1, f1) -> ReadLines m f1 = Ok (r2, f2) ->
    ReadLines (n + m) f = Ok (r1 ++ r2, f2).
Proof.
  induction n as [|n IH]; intros f f1 f2 r1 r2 E1 E2; simpl in *.
  - injection E1 as <- <-. exact E2.
  - destruct (ReadLine f) as [[[line e] f']| |]; try discriminate.
    destruct (ReadLines n f') as [[rest f'']| |] eqn:En; try discriminate.
    injection E1 as <- <-.
    rewrite (IH f' f'' f2 rest r2 En E2). reflexivity.
Qed.

End Terminal.

(** ** [ReadLine] over a script *)

Section ScriptTerminal.
Context {W : Type} `{io.Writer W}.
Import bufio.

Lemma pending_wf (sc : Scanner Script) (input : list byte) (e : error) :
  pending sc input e -> wf sc.
Proof. intros [Hwf _]. exact Hwf. Qed.

Lemma pending_New (rd : Script) (wr : W) (input : list byte) (e : error) :
  delivers rd = (input, e) ->
  pending (s (New rd wr)) input e.
Proof.
  intros Hdel. split; [apply wf_NewScanner|].
  left. split; [reflexivity|].
  exists input. split; [exact Hdel | reflexivity].
Qed.

Lemma ReadLine_line (f : FakeTerm Script W) (e : error)
      (line rest : list byte) :
  pending (s f) (line ++ LF :: rest) e -> ~ In LF line ->
  (err (s f) = None -> len line < maxTokenSize (s f)) ->
  exists f',
    ReadLine f = Ok (as_line line, f')
    /\ pending (s f') rest e
    /\ w f' = w f /\ maxTokenSize (s f') = maxTokenSize (s f).
Proof.
  intros Hp Hline Hlen. pose proof (pending_wf _ _ _ Hp) as Hwf.
  destruct (scan_loop_line (scan_fuel (s f)) (s f) e line rest Hp Hline Hlen
              (enough_scan_fuel (s f) Hwf))
    as (s1 & E & Htok & Hp1 & HM1).
  unfold ReadLine. rewrite (Scan_loop (s f) Hwf), E.
  eexists. split.
  - unfold as_line, Text. rewrite Htok, TrimRight_dropCR. reflexivity.
  - split; [exact Hp1 | split; [reflexivity | exact HM1]].
Qed.

Lemma ReadLine_final (f : FakeTerm Script W) (e : error) (line : list byte) :
  pending (s f) line e -> line <> [] -> ~ In LF line ->
  (err (s f) = None -> len line < maxTokenSize (s f)) ->
  exists f',
    ReadLine f = Ok (as_line line, f')
    /\ pending (s f') [] e
    /\ w f' = w f /\ maxTokenSize (s f') = maxTokenSize (s f).
Proof.
  intros Hp Hne Hline Hlen. pose proof (pending_wf _ _ _ Hp) as Hwf.
  destruct (scan_loop_final (scan_fuel (s f)) (s f) e line Hp Hne Hline Hlen
              (enough_scan_fuel (s f) Hwf))
    as (s1 & E & Htok & Hp1 & HM1).
  unfold ReadLine. rewrite (Scan_loop (s f) Hwf), E.
  eexists. split.
  - unfold as_line, Text. rewrite Htok, TrimRight_dropCR. reflexivity.
  - split; [exact Hp1 | split; [reflexivity | exact HM1]].
Qed.

Lemma ReadLine_end (f : FakeTerm Script W) (e : error) :
  pending (s f) [] e -> 0 < maxTokenSize (s f) ->
  exists f',
    ReadLine f = Ok ([], Some e, f')
    /\ wf (s f') /\ err (s f') = Some e /\ data (s f') = [].
Proof.
  intros Hp HM. pose proof (pending_wf _ _ _ Hp) as Hwf.
  destruct (scan_loop_end (scan_fuel (s f)) (s f) e Hp HM
              (enough_scan_fuel (s f) Hwf))
    as (s1 & E & He1 & Hd1 & Hp1 & HM1).
  unfold ReadLine. rewrite (Scan_loop (s f) Hwf), E.
  pose proof (Err_handed_out s1 e He1) as Hout.
  simpl. destruct (Err s1) eqn:EE; rewrite Hout;
    (eexists; split; [reflexivity|]; split; [apply Hp1|];
     split; [exact He1 | exact Hd1]).
Qed.

Lemma ReadLine_too_long (f : FakeTerm Script W) (e : error)
      (input : list byte) :
  pending (s f) input e -> err (s f) = None ->
  maxTokenSize (s f) < len input ->
  ~ In LF (firstn (Z.to_nat (maxTokenSize (s f))) input) ->
  exists f',
    ReadLine f = Ok ([], Some ErrTooLong, f')
    /\ pending (s f') (firstn (Z.to_nat (maxTokenSize (s f))) input) ErrTooLong
    /\ err (s f') = Some ErrTooLong
    /\ maxTokenSize (s f') = maxTokenSize (s f).
Proof.
  intros Hp He Hlong Hline. pose proof (pending_wf _ _ _ Hp) as Hwf.
  destruct (scan_loop_too_long (scan_fuel (s f)) (s f) e input Hp He Hlong
              Hline (enough_scan_fuel (s f) Hwf))
    as (s1 & E & He1 & Hd1 & Hwf1 & HM1).
  unfold ReadLine. rewrite (Scan_loop (s f) Hwf), E.
  simpl. unfold Err. rewrite He1.
  eexists. split; [reflexivity|].
  split; [|split; [exact He1 | exact HM1]].
  split; [exact Hwf1|]. right. split; [exact He1 | exact Hd1].
Qed.

(** The lines at the head of the pending input come out one per call. *)
Lemma ReadLines_lines (lines : list (list byte)) :
  forall (f : FakeTerm Script W) (rest : list byte) (e : error),
    pending (s f) (unlines lines ++ rest) e ->
    Forall (fun l => ~ In LF l /\ len l < maxTokenSize (s f)) lines ->
    exists f',
      ReadLines (length lines) f = Ok (map as_line lines, f')
      /\ pending (s f') rest e
      /\ w f' = w f /\ maxTokenSize (s f') = maxTokenSize (s f).
Proof.
  induction lines as [|l lines IH]; intros f rest e Hp Hfit.
  - exists f. repeat split; try reflexivity; try apply Hp.
  - inversion Hfit as [|? ? [Hl Hlen] Hfit']; subst.
    unfold unlines in Hp. simpl in Hp. rewrite <- !app_assoc in Hp.
    simpl in Hp.
    destruct (ReadLine_line f e l _ Hp Hl (fun _ => Hlen))
      as (f1 & E1 & Hp1 & Hw1 & HM1).
    destruct (IH f1 rest e Hp1) as (f2 & E2 & Hp2 & Hw2 & HM2).
    { rewrite HM1. exact Hfit'. }
    exists f2. simpl. rewrite E1.
    unfold as_line at 1. rewrite E2.
    split; [reflexivity|]. split; [exact Hp2|]. split; congruence.
Qed.

(** With nothing pending, every further call gives the error of the
    script. *)
Lemma ReadLines_end (n : nat) (f : FakeTerm Script W) (e : error) :
  pending (s f) [] e -> 0 < maxTokenSize (s f) ->
  exists f', ReadLines n f = Ok (repeat ([], Some e) n, f').
Proof.
  intros Hp HM. destruct n as [|n]; [exists f; reflexivity|].
  destruct (ReadLine_end f e Hp HM) as (f1 & E1 & Hwf1 & He1 & Hd1).
  destruct (ReadLines_stopped n f1 e Hwf1 He1 Hd1) as (f2 & E2).
  exists f2. simpl. rewrite E1, E2. reflexivity.
Qed.

(** A whole stream: its lines, its last line if unterminated, then its
    error for ever. *)
Lemma ReadLines_stream (f : FakeTerm Script W) (e : error)
      (lines : list (list byte)) (tail : list byte) (k : nat) :
  pending (s f) (unlines lines ++ tail) e ->
  0 < maxTokenSize (s f) ->
  Forall (fun l => ~ In LF l /\ len l < maxTokenSize (s f)) lines ->
  ~ In LF tail -> len tail < maxTokenSize (s f) ->
  exists f',
    ReadLines (length (lines ++ final_line tail) + k) f
    = Ok (map as_line (lines ++ final_line tail) ++ repeat ([], Some e) k, f').
Proof.
  intros Hp HM Hfit Htail Hlen.
  destruct (ReadLines_lines lines f tail e Hp Hfit)
    as (f1 & E1 & Hp1 & Hw1 & HM1).
  rewrite length_app, map_app, <- Nat.add_assoc, <- app_assoc.
  destruct tail as [|c tail'].
  - destruct (ReadLines_end k f1 e Hp1) as (f2 & E2); [lia|].
    exists f2. apply (ReadLines_app _ _ f f1 f2 _ _ E1). exact E2.
  - destruct (ReadLine_final f1 e (c :: tail') Hp1) as (f2 & E2 & Hp2 & _ & HM2);
      [discriminate | exact Htail | intros _; lia |].
    destruct (ReadLines_end k f2 e Hp2) as (f3 & E3); [lia|].
    exists f3. apply (ReadLines_app _ _ f f1 f3 _ _ E1).
    simpl. rewrite E2. unfold as_line at 1. rewrite E3. reflexivity.
Qed.

End ScriptTerminal.

(** * The properties of the specification *)

Lemma MaxScanTokenSize_pos : 0 < bufio.MaxScanTokenSize.
Proof. reflexivity. Qed.

Lemma long_line_no_newline : ~ In LF long_line.
Proof.
  unfold long_line. intros Hin. apply repeat_spec in Hin. discriminate Hin.
Qed.

Lemma long_line_len : len long_line = bufio.MaxScanTokenSize.
Proof.
  unfold long_line, len. rewrite repeat_length. apply Z2Nat.id.
  discriminate.
Qed.

Lemma long_line_nonempty : long_line <> [].
Proof.
  intros Heq. pose proof long_line_len as Hlen. rewrite Heq in Hlen.
  vm_compute in Hlen. discriminate Hlen.
Qed.

Lemma delivers_long_script : delivers long_script = (long_line ++ [LF], EOF).
Proof.
  unfold long_script, delivers. rewrite delivers_from_data.
  - cbn [delivers delivers_from fst snd]. rewrite app_nil_r. reflexivity.
  - intros Heq. apply app_eq_nil in Heq. destruct Heq as [_ Heq].
    discriminate Heq.
Qed.

Lemma delivers_long_tail_script :
  delivers long_tail_script = (long_line, EOF).
Proof.
  unfold long_tail_script, delivers. rewrite delivers_from_data.
  - cbn [delivers delivers_from fst snd]. rewrite app_nil_r. reflexivity.
  - exact long_line_nonempty.
Qed.

Lemma returned_Ok {A B : Type} (x : result (A * B)) (a : A) :
  (exists b, x = Ok (a, b)) -> returned x = Some a.
Proof. intros [b ->]. reflexivity. Qed.

(** C1, as amended.  For every stream of [N] newline-terminated lines, each
    shorter than [MaxScanTokenSize] (64 KiB) before its newline, [N]
    consecutive calls of [ReadLine] on a new terminal return those lines in
    order, each without its trailing carriage returns and newline and each
    with a nil error. *)
Theorem ReadLines_returns_lines
  (W : Type) (WW : io.Writer W) (rd : Script) (wr : W)
  (lines : list (list byte)) (e : error) :
  delivers rd = (unlines lines, e) ->
  Forall fits lines ->
  returned (ReadLines (length lines) (New rd wr)) = Some (map as_line lines).
Proof.
  intros Hdel Hfit. apply returned_Ok.
  assert (Hp : pending (s (New rd wr)) (unlines lines ++ []) e).
  { rewrite app_nil_r. apply pending_New; assumption. }
  destruct (ReadLines_lines lines (New rd wr) [] e Hp Hfit)
    as (f' & E & _).
  exists f'. exact E.
Qed.

Lemma ReadLines_returns_lines_witness :
  returned (ReadLines 2 (New hello_world devnull))
  = Some [(bytes_of "hello", None); (bytes_of "world", None)].
Proof.
  apply (ReadLines_returns_lines Sink SinkWriter hello_world devnull
           [bytes_of "hello" ++ [CR]; bytes_of "world"] EOF).
  - reflexivity.
  - repeat constructor; try (vm_compute; reflexivity);
      intros Hin; vm_compute in Hin; intuition discriminate.
Defined.

(** C1 as stated fails: a stream of one newline-terminated line of 65536
    bytes; the first [ReadLine] returns the empty string and
    [bufio.ErrTooLong], not the line. *)
Lemma ReadLines_long_line_counterexample :
  delivers long_script = (unlines [long_line], EOF)
  /\ ~ In LF long_line
  /\ returned (ReadLines 1 (New long_script devnull))
     = Some [([], Some ErrTooLong)]
  /\ returned (ReadLines 1 (New long_script devnull))
     <> Some (map as_line [long_line]).
Proof.
  assert (E : returned (ReadLines 1 (New long_script devnull))
              = Some [([], Some ErrTooLong)]) by (vm_compute; reflexivity).
  split; [rewrite delivers_long_script; unfold unlines; cbn [map concat];
          rewrite app_nil_r; reflexivity|].
  split; [exact long_line_no_newline|].
  split; [exact E|].
  rewrite E. intros Heq.
  apply (f_equal (fun o : option (list (list byte * option error)) =>
                    match o with
                    | Some ((_, Some _) :: _) => true
                    | _ => false
                    end)) in Heq.
  cbn [map as_line] in Heq. discriminate Heq.
Qed.

(** C2, as amended.  For every stream that ends cleanly ([io.EOF] and no
    other error) and whose lines, the last of them with or without its
    newline, are each shorter than [MaxScanTokenSize] (64 KiB): the
    [ReadLine] after the last line returns the empty string and [io.EOF]. *)
Theorem ReadLine_after_last_line
  (W : Type) (WW : io.Writer W) (rd : Script) (wr : W)
  (lines : list (list byte)) (tail : list byte) :
  delivers rd = (unlines lines ++ tail, EOF) ->
  Forall fits lines -> fits tail ->
  returned (ReadLines (length (lines ++ final_line tail) + 1) (New rd wr))
  = Some (map as_line (lines ++ final_line tail) ++ [([], Some EOF)]).
Proof.
  intros Hdel Hfit [Htail Hlen]. apply returned_Ok.
  apply (ReadLines_stream (New rd wr) EOF lines tail 1).
  - apply pending_New; assumption.
  - exact MaxScanTokenSize_pos.
  - exact Hfit.
  - exact Htail.
  - exact Hlen.
Qed.

Lemma ReadLine_after_last_line_witness :
  returned (ReadLines 3 (New hello_world devnull))
  = Some [(bytes_of "hello", None); (bytes_of "world", None); ([], Some EOF)].
Proof.
  apply (ReadLine_after_last_line Sink SinkWriter hello_world devnull
           [bytes_of "hello" ++ [CR]; bytes_of "world"] []).
  - reflexivity.
  - repeat constructor; try (vm_compute; reflexivity);
      intros Hin; vm_compute in Hin; intuition discriminate.
  - split; [intros [] | vm_compute; reflexivity].
Defined.

(** C2 as stated fails: a stream of one newline-terminated line of 65536
    bytes that ends cleanly; the reads give [bufio.ErrTooLong], then 65536
    bytes with a nil error, then [bufio.ErrTooLong] again and again: the read
    after the last line that came out does not return [io.EOF]. *)
Lemma ReadLine_after_last_line_counterexample :
  delivers long_script = (unlines [long_line], EOF)
  /\ ~ In LF long_line
  /\ sizes (returned (ReadLines 6 (New long_script devnull)))
     = Some [(0, Some ErrTooLong); (bufio.MaxScanTokenSize, None);
             (0, Some ErrTooLong); (0, Some ErrTooLong);
             (0, Some ErrTooLong); (0, Some ErrTooLong)].
Proof.
  split; [rewrite delivers_long_script; unfold unlines; cbn [map concat];
          rewrite app_nil_r; reflexivity|].
  split; [exact long_line_no_newline|].
  vm_compute. reflexivity.
Qed.

(** C3, as amended.  For every stream that breaks with an error [e] other
    than [io.EOF] (the error its source reports; [io.ErrNoProgress] for a
    source that stalls), after lines, and an unterminated rest, each shorter
    than [MaxScanTokenSize] (64 KiB): once those lines (and the rest before
    the error, if any) were returned, every [ReadLine] returns the empty
    string and that same [e], which is not [io.EOF]. *)
Theorem ReadLine_stream_error
  (W : Type) (WW : io.Writer W) (rd : Script) (wr : W)
  (lines : list (list byte)) (tail : list byte) (e : error) (k : nat) :
  e <> EOF ->
  delivers rd = (unlines lines ++ tail, e) ->
  Forall fits lines -> fits tail ->
  returned (ReadLines (length (lines ++ final_line tail) + S k) (New rd wr))
  = Some (map as_line (lines ++ final_line tail) ++ repeat ([], Some e) (S k))
  /\ Some e <> Some EOF.
Proof.
  intros He Hdel Hfit [Htail Hlen]. split; [|congruence].
  apply returned_Ok.
  apply (ReadLines_stream (New rd wr) e lines tail (S k)).
  - apply pending_New; assumption.
  - exact MaxScanTokenSize_pos.
  - exact Hfit.
  - exact Htail.
  - exact Hlen.
Qed.

Lemma ReadLine_stream_error_witness :
  returned (ReadLines 4 (New broken_script devnull))
  = Some [(bytes_of "ab", None); (bytes_of "c", None);
          ([], Some (StreamErr "boom")); ([], Some (StreamErr "boom"))]
  /\ Some (StreamErr "boom") <> Some EOF.
Proof.
  apply (ReadLine_stream_error Sink SinkWriter broken_script devnull
           [bytes_of "ab"] (bytes_of "c") (StreamErr "boom") 1).
  - discriminate.
  - reflexivity.
  - repeat constructor; try (vm_compute; reflexivity);
      intros Hin; vm_compute in Hin; intuition discriminate.
  - split; [intros Hin; vm_compute in Hin; intuition discriminate
           | vm_compute; reflexivity].
Defined.

(** C3 as stated fails: a source that reports an error after 65537 bytes
    without newline; the reads give [bufio.ErrTooLong], then 65536 bytes with
    a nil error, then [bufio.ErrTooLong] again and again, and never the error
    of the source. *)
Lemma ReadLine_stream_error_counterexample :
  delivers long_then_boom = (long_line ++ [("a"%byte)], StreamErr "boom")
  /\ StreamErr "boom" <> EOF
  /\ sizes (returned (ReadLines 6 (New long_then_boom devnull)))
     = Some [(0, Some ErrTooLong); (bufio.MaxScanTokenSize, None);
             (0, Some ErrTooLong); (0, Some ErrTooLong);
             (0, Some ErrTooLong); (0, Some ErrTooLong)].
Proof.
  split; [unfold long_then_boom, delivers; apply delivers_from_error|].
  split; [discriminate|].
  vm_compute. reflexivity.
Qed.

(** C4.  For every prompt and every state, [ReadPassword] returns exactly
    what [ReadLine] returns there, and the writer is afterwards as it was:
    nothing was written. *)
Theorem ReadPassword_is_ReadLine
  (R W : Type) (RR : io.Reader R) (WW : io.Writer W)
  (prompt : list byte) (f : FakeTerm R W) :
  ReadPassword prompt f = ReadLine f
  /\ match ReadPassword prompt f with
     | Ok (_, _, f') => w f' = w f
     | _ => True
     end.
Proof.
  split; [reflexivity|]. unfold ReadPassword. apply ReadLine_writer.
Qed.

(** C5.  For all arguments, [SetBracketedPasteMode] and [SetPrompt] leave the
    terminal (scanner and writer) as it was, [SetSize] returns a nil error and
    leaves it as it was, and so every later [ReadLine], [ReadPassword] and
    [Write] gives what it would have given without them. *)
Theorem setters_change_nothing
  (R W : Type) (RR : io.Reader R) (WW : io.Writer W)
  (on : bool) (prompt : list byte) (width height : Z) (f : FakeTerm R W) :
  SetBracketedPasteMode on f = f
  /\ SetPrompt prompt f = f
  /\ SetSize width height f = (None, f)
  /\ forall (p buf : list byte),
       let f' := snd (SetSize width height
                        (SetPrompt prompt (SetBracketedPasteMode on f))) in
       ReadLine f' = ReadLine f
       /\ ReadPassword p f' = ReadPassword p f
       /\ Write buf f' = Write buf f.
Proof. repeat split. Qed.

(** C6.  For every buffer, [Write] returns the count and the error of the
    writer's [Write] on that buffer, and leaves the writer as that one call
    left it and the scanner as it was; on a recording writer, the log grows
    by exactly that buffer, unchanged. *)
Theorem Write_forwards :
  (forall (R W : Type) (RR : io.Reader R) (WW : io.Writer W)
          (f : FakeTerm R W) (buf : list byte),
      fst (Write buf f) = fst (io.Write (w f) buf)
      /\ w (snd (Write buf f)) = snd (io.Write (w f) buf)
      /\ s (snd (Write buf f)) = s f)
  /\ (forall (R : Type) (RR : io.Reader R)
             (f : FakeTerm R Sink) (buf : list byte),
         calls (w (snd (Write buf f))) = calls (w f) ++ [buf]
         /\ fst (Write buf f) = reply (w f) (length (calls (w f))) buf
         /\ reply (w (snd (Write buf f))) = reply (w f)).
Proof.
  split.
  - intros R W RR WW f buf. unfold Write.
    destruct (io.Write (w f) buf) as [[n e] w']. repeat split.
  - intros R RR f buf. unfold Write. simpl.
    destruct (reply (w f) (length (calls (w f))) buf) as [n e]. repeat split.
Qed.

(** C7, as amended.  For every terminal a program can hold on which
    [ReadLine] returned an error [e], whichever it is, except the
    [bufio.ErrTooLong] that the scanner raises itself over a full buffer
    (so: [e] is not [bufio.ErrTooLong], or the scanner's buffer holds nothing
    more, as when the source reported that value): every later [ReadLine]
    returns the empty string and that same error, never again a line with a
    nil error. *)
Theorem ReadLine_error_is_final
  (R W : Type) (RR : io.Reader R) (WW : io.Writer W)
  (f f1 : FakeTerm R W) (line : list byte) (e : error) :
  reachable f ->
  ReadLine f = Ok (line, Some e, f1) ->
  e <> ErrTooLong \/ bufio.data (s f1) = [] ->
  forall n : nat, returned (ReadLines n f1) = Some (repeat ([], Some e) n).
Proof.
  intros Hreach Hread He n. apply returned_Ok.
  pose proof (reachable_wf f Hreach) as Hwf.
  unfold ReadLine in Hread.
  destruct (Scan_returns (s f) Hwf) as (b & s1 & E & Hwf1 & _ & Hstop).
  rewrite E in Hread. destruct b; [discriminate Hread|].
  assert (Herr : exists e0, bufio.err s1 = Some e0).
  { destruct (Hstop eq_refl) as [(_ & e0 & He0) | Hlong];
      [exists e0; exact He0 | exists ErrTooLong; exact Hlong]. }
  destruct Herr as (e0 & He0).
  pose proof (Err_handed_out s1 e0 He0) as Hout.
  assert (Hf1 : f1 = mkFakeTerm (w f) s1 /\ e = e0).
  { simpl in Hread. destruct (bufio.Err s1) eqn:EE.
    - rewrite Hout in Hread. injection Hread as _ <- <-. split; reflexivity.
    - injection Hread as _ <- <-. injection Hout as <-. split; reflexivity. }
  destruct Hf1 as [-> ->].
  assert (Hd : bufio.data s1 = []).
  { destruct (Hstop eq_refl) as [(Hd & _) | Hlong]; [exact Hd|].
    destruct He as [He | Hd]; [|exact Hd].
    exfalso. apply He. congruence. }
  apply (ReadLines_stopped n (mkFakeTerm (w f) s1) e0 Hwf1 He0 Hd).
Qed.

Lemma ReadLine_error_is_final_witness :
  returned (ReadLines 3 after_ab_error)
  = Some (repeat ([], Some ErrTooLong) 3).
Proof.
  apply (ReadLine_error_is_final Script Sink ScriptReader SinkWriter
           after_ab after_ab_error [] ErrTooLong).
  - apply (@reach_ReadLine Script Sink ScriptReader SinkWriter
             (New too_long_from_source devnull) after_ab
             (bytes_of "ab") None).
    + apply reach_New.
    + vm_compute. reflexivity.
  - vm_compute. reflexivity.
  - right. vm_compute. reflexivity.
Defined.

(** C7 as stated fails: on the new terminal over a line of 65536 bytes and
    its newline, [ReadLine] returns the empty string and [bufio.ErrTooLong],
    and the next [ReadLine] on that terminal returns 65536 bytes with a nil
    error. *)
Lemma ReadLine_error_is_final_counterexample :
  reachable (New long_script devnull)
  /\ returned (ReadLine (New long_script devnull))
     = Some ([], Some ErrTooLong)
  /\ sizes (returned (ReadLines 1 after_too_long))
     = Some [(bufio.MaxScanTokenSize, None)].
Proof.
  split; [apply reach_New|].
  split; vm_compute; reflexivity.
Qed.

(** C9, as amended.  For every stream that ends cleanly and whose last bytes
    are a non-empty line without newline, that line and the lines before it
    each shorter than [MaxScanTokenSize]: [ReadLine] returns the lines, then
    that last line (trimmed) with a nil error, and only then [io.EOF]. *)
Theorem ReadLine_final_unterminated_line
  (W : Type) (WW : io.Writer W) (rd : Script) (wr : W)
  (lines : list (list byte)) (tail : list byte) :
  delivers rd = (unlines lines ++ tail, EOF) ->
  Forall fits lines -> fits tail -> tail <> [] ->
  returned (ReadLines (length lines + 2) (New rd wr))
  = Some (map as_line lines ++ [as_line tail; ([], Some EOF)]).
Proof.
  intros Hdel Hfit [Htail Hlen] Hne. apply returned_Ok.
  destruct (ReadLines_stream (New rd wr) EOF lines tail 1) as (f' & E);
    try assumption.
  - apply pending_New; assumption.
  - exact MaxScanTokenSize_pos.
  - exists f'. destruct tail as [|c tail']; [congruence|].
    simpl final_line in E.
    rewrite length_app, map_app, <- Nat.add_assoc, <- app_assoc in E.
    exact E.
Qed.

Lemma ReadLine_final_unterminated_line_witness :
  returned (ReadLines 3 (New unterminated_script devnull))
  = Some [(bytes_of "a", None); (bytes_of "bc", None); ([], Some EOF)].
Proof.
  apply (ReadLine_final_unterminated_line Sink SinkWriter unterminated_script
           devnull [bytes_of "a"] (bytes_of "bc")).
  - reflexivity.
  - repeat constructor; try (vm_compute; reflexivity);
      intros Hin; vm_compute in Hin; intuition discriminate.
  - split; [intros Hin; vm_compute in Hin; intuition discriminate
           | vm_compute; reflexivity].
  - discriminate.
Defined.

(** C9 as stated fails: a stream that is one unterminated line of 65536
    bytes and then ends; the first [ReadLine] reports [bufio.ErrTooLong]
    instead of returning the line. *)
Lemma ReadLine_long_tail_counterexample :
  delivers long_tail_script = (long_line, EOF)
  /\ long_line <> [] /\ ~ In LF long_line
  /\ returned (ReadLines 1 (New long_tail_script devnull))
     = Some [([], Some ErrTooLong)].
Proof.
  split; [exact delivers_long_tail_script|].
  split; [exact long_line_nonempty|].
  split; [exact long_line_no_newline|].
  vm_compute. reflexivity.
Qed.

(** C10, as amended.  For every stream in which, after lines that fit, come
    more than [MaxScanTokenSize] (64 KiB) bytes whose first 64 KiB hold no
    newline: once the lines before were returned, [ReadLine] returns the empty
    string and [bufio.ErrTooLong], whatever the source itself reports; the
    next [ReadLine] returns those first 64 KiB (trimmed) with a nil error; and
    every [ReadLine] after that returns the empty string and
    [bufio.ErrTooLong] again. *)
Theorem ReadLine_too_long_line
  (W : Type) (WW : io.Writer W) (rd : Script) (wr : W)
  (lines : list (list byte)) (long rest : list byte) (e : error) (k : nat) :
  delivers rd = (unlines lines ++ long ++ rest, e) ->
  Forall fits lines ->
  len long = bufio.MaxScanTokenSize -> ~ In LF long -> rest <> [] ->
  returned (ReadLines (length lines + (2 + k)) (New rd wr))
  = Some (map as_line lines
          ++ [([], Some ErrTooLong); as_line long]
          ++ repeat ([], Some ErrTooLong) k).
Proof.
  intros Hdel Hfit Hlen Hline Hrest. apply returned_Ok.
  pose proof (pending_New rd wr _ e Hdel) as Hp.
  destruct (ReadLines_lines lines (New rd wr) (long ++ rest) e Hp
              Hfit) as (f1 & E1 & Hp1 & _ & HM1).
  change (bufio.maxTokenSize (s (New rd wr))) with bufio.MaxScanTokenSize in HM1.
  assert (Hmore : bufio.MaxScanTokenSize < len (long ++ rest)).
  { rewrite len_app, Hlen. pose proof (len_pos rest Hrest). lia. }
  assert (Hhead : firstn (Z.to_nat bufio.MaxScanTokenSize) (long ++ rest) = long).
  { rewrite <- Hlen. apply firstn_len_app. }
  assert (He1 : bufio.err (s f1) = None).
  { destruct Hp1 as [Hwf1 [(He1 & _) | (He1 & Hd1)]]; [exact He1|].
    exfalso. unfold bufio.wf, bufio.end_ in Hwf1.
    rewrite Hd1, HM1 in Hwf1. lia. }
  destruct (ReadLine_too_long f1 e (long ++ rest) Hp1 He1)
    as (f2 & E2 & Hp2 & He2 & HM2).
  { rewrite HM1. exact Hmore. }
  { rewrite HM1, Hhead. exact Hline. }
  rewrite HM1, Hhead in Hp2. rewrite HM1 in HM2.
  assert (Hne : long <> []).
  { intros ->. change (len (@nil byte)) with 0 in Hlen.
    pose proof MaxScanTokenSize_pos. lia. }
  destruct (ReadLine_final f2 ErrTooLong long Hp2 Hne Hline)
    as (f3 & E3 & Hp3 & _ & HM3).
  { intros Hnone. congruence. }
  destruct (ReadLines_end k f3 ErrTooLong Hp3) as (f4 & E4).
  { rewrite HM3, HM2. exact MaxScanTokenSize_pos. }
  exists f4. apply (ReadLines_app _ _ (New rd wr) f1 f4 _ _ E1).
  simpl. rewrite E2, E3, E4. reflexivity.
Qed.

Lemma ReadLine_too_long_line_witness :
  returned (ReadLines (length (@nil (list byte)) + (2 + 2))
              (New long_script devnull))
  = Some (map as_line []
          ++ [([], Some ErrTooLong); as_line long_line]
          ++ repeat ([], Some ErrTooLong) 2).
Proof.
  apply (ReadLine_too_long_line Sink SinkWriter long_script devnull
           [] long_line [LF] EOF 2).
  - exact delivers_long_script.
  - constructor.
  - exact long_line_len.
  - exact long_line_no_newline.
  - discriminate.
Defined.

(** C10 as stated fails in its last part: after the too-long error on a line
    of 65536 bytes and its newline, the next [ReadLine] does not fail: it
    returns 65536 bytes with a nil error. *)
Lemma ReadLine_after_too_long_counterexample :
  delivers long_script = (long_line ++ [LF], EOF)
  /\ ~ In LF long_line
  /\ sizes (returned (ReadLines 2 (New long_script devnull)))
     = Some [(0, Some ErrTooLong); (bufio.MaxScanTokenSize, None)].
Proof.
  split; [exact delivers_long_script|].
  split; [exact long_line_no_newline|].
  vm_compute. reflexivity.
Qed.

(** * Further properties of the code *)

(** ** Tokens of the scanner, over any reader *)

Lemma dropCR_incl (l : list byte) (x : byte) :
  In x (bufio.dropCR l) -> In x l.
Proof.
  unfold bufio.dropCR.
  destruct ((0 <? len l) && Byte.eqb (last l LF) CR); [|tauto].
  intros Hin. rewrite <- (firstn_skipn (Z.to_nat (len l - 1)) l).
  apply in_or_app. left. exact Hin.
Qed.

Lemma dropCR_len (l : list byte) : len (bufio.dropCR l) <= len l.
Proof.
  unfold bufio.dropCR.
  destruct ((0 <? len l) && Byte.eqb (last l LF) CR); [|lia].
  unfold len. rewrite length_firstn. lia.
Qed.

Lemma TrimRight_prefix (l cutset : list byte) :
  exists t, l = strings.TrimRight l cutset ++ t.
Proof.
  destruct (TrimRight_spec l cutset) as (t & Ht & _). exists t. exact Ht.
Qed.

Lemma TrimRight_len (l cutset : list byte) :
  len (strings.TrimRight l cutset) <= len l.
Proof.
  destruct (TrimRight_prefix l cutset) as (t & Ht).
  rewrite Ht at 2. rewrite len_app. pose proof (len_nonneg t). lia.
Qed.

Lemma TrimRight_incl (l cutset : list byte) (x : byte) :
  In x (strings.TrimRight l cutset) -> In x l.
Proof.
  destruct (TrimRight_prefix l cutset) as (t & Ht). intros Hin.
  rewrite Ht. apply in_or_app. left. exact Hin.
Qed.

Section Tokens.
Context {R W : Type} `{io.Reader R} `{io.Writer W}.
Import bufio.

(** A turn that returns [true] leaves a token: no newline in it, and no
    longer than the window could be. *)
Lemma scan_turn_token (sc sc1 : Scanner R) :
  wf sc -> scan_turn sc = Return true sc1 ->
  exists t, tok sc1 = Some t /\ ~ In LF t /\ len t <= maxTokenSize sc.
Proof.
  intros Hwf Hturn.
  assert (Hle : len (data sc) <= maxTokenSize sc).
  { destruct sc as [rd M tk L st d er em dn]. unfold wf, end_ in *.
    simpl in *. lia. }
  destruct (in_dec Byte.byte_eq_dec LF (data sc)) as [Hin|Hn].
  - destruct (first_split LF (data sc) Hin) as (line & rest & Hd & Hline).
    rewrite (turn_line sc line rest Hd Hline) in Hturn.
    injection Hturn as <-. exists (dropCR line).
    split; [reflexivity|]. split.
    + intros Hx. apply Hline. apply dropCR_incl. exact Hx.
    + pose proof (dropCR_len line). rewrite Hd, len_app, len_cons in Hle.
      pose proof (len_nonneg rest). lia.
  - destruct (err sc) as [e|] eqn:He.
    + destruct (data sc) as [|c d'] eqn:Hd.
      * rewrite (turn_stopped sc e He Hd) in Hturn. discriminate Hturn.
      * assert (Hne : data sc <> []) by (rewrite Hd; discriminate).
        rewrite <- Hd in Hn, Hle.
        rewrite (turn_final sc e He Hne Hn) in Hturn.
        injection Hturn as <-. exists (dropCR (data sc)).
        split; [reflexivity|]. split.
        -- intros Hx. apply Hn. apply dropCR_incl. exact Hx.
        -- pose proof (dropCR_len (data sc)). lia.
    + destruct (Z.eq_dec (len (data sc)) (maxTokenSize sc)) as [Heq|Hneq].
      * destruct (turn_too_long sc Hwf He Hn Heq) as (tk' & Ht & _).
        rewrite Ht in Hturn. discriminate Hturn.
      * destruct (turn_reads sc Hwf He Hn) as (s' & Ht & _); [lia|].
        rewrite Ht in Hturn. discriminate Hturn.
Qed.

Lemma scan_loop_token (fuel : nat) :
  forall sc sc1 : Scanner R,
    wf sc -> scan_loop fuel sc = Ok (true, sc1) ->
    exists t, tok sc1 = Some t /\ ~ In LF t /\ len t <= maxTokenSize sc.
Proof.
  induction fuel as [|fuel IH]; intros sc sc1 Hwf Hloop; [discriminate Hloop|].
  simpl in Hloop. pose proof (scan_turn_cases sc Hwf) as Hc.
  destruct (scan_turn sc) as [b s2|s2|msg] eqn:Hturn; [| |discriminate Hloop].
  - injection Hloop as -> ->. apply (scan_turn_token sc sc1 Hwf Hturn).
  - destruct Hc as (Hwf2 & HM & _).
    destruct (IH s2 sc1 Hwf2 Hloop) as (t & Ht & Hn & Hlen).
    exists t. split; [exact Ht|]. split; [exact Hn | lia].
Qed.

(** What [ReadLine] returns, whatever the reader: a line without newline
    and without a carriage return at its end, no longer than the buffer can
    get, and an empty line with every error. *)
Lemma ReadLine_result (f f' : FakeTerm R W) (line : list byte)
      (e : option error) :
  wf (s f) -> ReadLine f = Ok (line, e, f') ->
  maxTokenSize (s f') = maxTokenSize (s f)
  /\ len line <= maxTokenSize (s f)
  /\ (e = None -> ~ In LF line /\ forall l', line <> l' ++ [CR])
  /\ (e <> None -> line = []).
Proof.
  intros Hwf Hread. unfold ReadLine in Hread.
  assert (HM : 0 <= maxTokenSize (s f)).
  { destruct (s f) as [rd M tk L st d er em dn]. unfold wf, end_ in *.
    simpl in *. pose proof (len_nonneg d). lia. }
  destruct (Scan_returns (s f) Hwf) as (b & s1 & E & Hwf1 & HM1 & _).
  rewrite E in Hread. destruct b.
  - injection Hread as <- <- <-.
    rewrite (Scan_loop (s f) Hwf) in E.
    destruct (scan_loop_token _ _ _ Hwf E) as (t & Ht & Hn & Hlen).
    unfold Text. rewrite Ht.
    split; [exact HM1|]. split; [|split].
    + pose proof (TrimRight_len t CRLF). lia.
    + intros _. split.
      * intros Hin. apply Hn. apply (TrimRight_incl t CRLF). exact Hin.
      * intros l' Heq.
        destruct (TrimRight_spec t CRLF) as (_ & _ & _ & Hlast).
        apply (Hlast l' CR Heq). left. reflexivity.
    + intros Hne. congruence.
  - simpl in Hread.
    assert (Hshape : line = [] /\ e <> None
                     /\ maxTokenSize (s f') = maxTokenSize (s f)).
    { destruct (Err s1) eqn:EE; injection Hread as <- <- <-;
        (split; [reflexivity|]); (split; [|exact HM1]); discriminate. }
    destruct Hshape as (-> & Hne & HM').
    split; [exact HM'|]. split; [exact HM|]. split; [|reflexivity].
    intros He. contradiction.
Qed.

(** The scanner of every terminal a program can hold keeps the token limit
    [New] gave it. *)
Lemma reachable_maxTokenSize (f : FakeTerm R W) :
  reachable f -> maxTokenSize (s f) = MaxScanTokenSize.
Proof.
  induction 1 as [rd wr | f f' line e Hf IH E | f f' prompt line e Hf IH E
                  | f on Hf IH | f prompt Hf IH | f width height Hf IH
                  | f buf Hf IH]; try exact IH.
  - reflexivity.
  - destruct (ReadLine_result f f' line e (reachable_wf f Hf) E) as (HM & _).
    congruence.
  - unfold ReadPassword in E.
    destruct (ReadLine_result f f' line e (reachable_wf f Hf) E) as (HM & _).
    congruence.
  - unfold Write. destruct (io.Write (w f) buf) as [[n e] w']. exact IH.
Qed.

End Tokens.

(** ** What [ReadLine] returns, whatever the reader *)

Lemma ReadLine_after_hello :
  ReadLine (New hello_world devnull) = Ok (bytes_of "hello", None, after_hello).
Proof. vm_compute. reflexivity. Qed.

(** X1.  On every terminal a program can hold, over any reader: a line that
    [ReadLine] returns with a nil error holds no newline and does not end in
    a carriage return. *)
Theorem ReadLine_line_shape
  (R W : Type) (RR : io.Reader R) (WW : io.Writer W)
  (f f' : FakeTerm R W) (line : list byte) :
  reachable f ->
  ReadLine f = Ok (line, None, f') ->
  ~ In LF line /\ forall l', line <> l' ++ [CR].
Proof.
  intros Hreach Hread.
  destruct (ReadLine_result f f' line None (reachable_wf f Hreach) Hread)
    as (_ & _ & Hshape & _).
  apply Hshape. reflexivity.
Qed.

Lemma ReadLine_line_shape_witness :
  ~ In LF (bytes_of "hello") /\ forall l', bytes_of "hello" <> l' ++ [CR].
Proof.
  apply (ReadLine_line_shape Script Sink ScriptReader SinkWriter
           (New hello_world devnull) after_hello).
  - apply reach_New.
  - exact ReadLine_after_hello.
Defined.

(** X2.  On every terminal a program can hold, over any reader: whatever
    [ReadLine] returns is at most [MaxScanTokenSize] (64 KiB) long. *)
Theorem ReadLine_line_bounded
  (R W : Type) (RR : io.Reader R) (WW : io.Writer W)
  (f f' : FakeTerm R W) (line : list byte) (e : option error) :
  reachable f ->
  ReadLine f = Ok (line, e, f') ->
  len line <= bufio.MaxScanTokenSize.
Proof.
  intros Hreach Hread.
  destruct (ReadLine_result f f' line e (reachable_wf f Hreach) Hread)
    as (_ & Hlen & _).
  rewrite (reachable_maxTokenSize f Hreach) in Hlen. exact Hlen.
Qed.

Lemma ReadLine_line_bounded_witness :
  len (bytes_of "hello") <= bufio.MaxScanTokenSize.
Proof.
  apply (ReadLine_line_bounded Script Sink ScriptReader SinkWriter
           (New hello_world devnull) after_hello (bytes_of "hello") None).
  - apply reach_New.
  - exact ReadLine_after_hello.
Defined.

(** X3.  On every terminal a program can hold, over any reader, [ReadLine]
    returns: the scanner does not panic and its loop ends.  It returns the
    empty string with every error, leaves the writer as it was, and the
    terminal it leaves is again one a program can hold. *)
Theorem ReadLine_always_returns
  (R W : Type) (RR : io.Reader R) (WW : io.Writer W) (f : FakeTerm R W) :
  reachable f ->
  exists line e f',
    ReadLine f = Ok (line, e, f')
    /\ reachable f' /\ w f' = w f /\ (e <> None -> line = []).
Proof.
  intros Hreach. pose proof (reachable_wf f Hreach) as Hwf.
  destruct (ReadLine_returns f Hwf) as (line & e & f' & E & _ & Hw).
  exists line, e, f'. split; [exact E|].
  split; [eapply reach_ReadLine; eassumption|].
  split; [exact Hw|].
  destruct (ReadLine_result f f' line e Hwf E) as (_ & _ & _ & Hempty).
  exact Hempty.
Qed.

Lemma ReadLine_always_returns_witness :
  exists line e f',
    ReadLine (New hello_world devnull) = Ok (line, e, f')
    /\ reachable f' /\ w f' = w (New hello_world devnull)
    /\ (e <> None -> line = []).
Proof.
  apply (ReadLine_always_returns Script Sink ScriptReader SinkWriter
           (New hello_world devnull)).
  apply reach_New.
Defined.



(** X5.  A row of [Write] calls reaches the writer as one call per
    buffer, in order and unchanged, returns one result per buffer, and
    leaves the scanner as it was. *)
Theorem Writes_in_order
  (R : Type) (RR : io.Reader R) (bufs : list (list byte))
  (f : FakeTerm R Sink) :
  calls (w (snd (Writes bufs f))) = calls (w f) ++ bufs
  /\ length (fst (Writes bufs f)) = length bufs
  /\ s (snd (Writes bufs f)) = s f.
Proof.
  revert f. induction bufs as [|buf bufs IH]; intros f.
  - simpl. rewrite app_nil_r. repeat split.
  - cbn [Writes].
    destruct (Write buf f) as [[n e] f1] eqn:EW.
    specialize (IH f1).
    destruct (Writes bufs f1) as [rest f2]. simpl in *.
    assert (Hf1 : calls (w f1) = calls (w f) ++ [buf] /\ s f1 = s f).
    { unfold Write in EW. simpl in EW.
      destruct (reply (w f) (length (calls (w f))) buf) as [n' e'].
      injection EW as _ _ <-. split; reflexivity. }
    destruct Hf1 as [Hc1 Hs1]. destruct IH as (Hc & Hl & Hs).
    rewrite Hc, Hc1, <- app_assoc. simpl. repeat split; congruence.
Qed.

(** ** Streams: carriage returns, chunks, empty reads *)





Lemma ReadLines_firstn (n m : nat) :
  forall (R W : Type) (RR : io.Reader R) (WW : io.Writer W)
         (f f2 : FakeTerm R W) results,
    ReadLines (n + m) f = Ok (results, f2) ->
    exists f1, ReadLines n f = Ok (firstn n results, f1).
Proof.
  induction n as [|n IH]; intros R W RR WW f f2 results E.
  - exists f. reflexivity.
  - simpl in E. simpl.
    destruct (ReadLine f) as [[[line e] f']| |]; try discriminate E.
    destruct (ReadLines (n + m) f') as [[rest f'']| |] eqn:En;
      try discriminate E.
    injection E as <- <-.
    destruct (IH R W RR WW f' f'' rest En) as (f1 & E1).
    exists f1. rewrite E1. reflexivity.
Qed.

(** What any number of calls returns on a stream whose lines fit. *)
Lemma ReadLines_of_stream
  (W : Type) (WW : io.Writer W) (rd : Script) (wr : W)
  (lines : list (list byte)) (tail : list byte) (e : error) (n : nat) :
  delivers rd = (unlines lines ++ tail, e) ->
  Forall fits lines -> fits tail ->
  returned (ReadLines n (New rd wr))
  = Some (firstn n (map as_line (lines ++ final_line tail)
                    ++ repeat ([], Some e) n)).
Proof.
  intros Hdel Hfit [Htail Hlen]. apply returned_Ok.
  destruct (ReadLines_stream (New rd wr) e lines tail n) as (f2 & E).
  - apply pending_New. exact Hdel.
  - exact MaxScanTokenSize_pos.
  - exact Hfit.
  - exact Htail.
  - exact Hlen.
  - rewrite Nat.add_comm in E.
    apply (ReadLines_firstn n _ Script W ScriptReader WW (New rd wr) f2 _ E).
Qed.

(** X7.  How the reader cuts the stream into reads does not matter: two
    readers that deliver the same bytes and the same final error, in lines
    that fit the scanner, give the same results to any number of [ReadLine]
    calls. *)
Theorem ReadLines_chunking_independent
  (W : Type) (WW : io.Writer W) (rd1 rd2 : Script) (wr1 wr2 : W)
  (lines : list (list byte)) (tail : list byte) (n : nat) :
  delivers rd1 = delivers rd2 ->
  fst (delivers rd1) = unlines lines ++ tail ->
  Forall fits lines -> fits tail ->
  returned (ReadLines n (New rd1 wr1)) = returned (ReadLines n (New rd2 wr2)).
Proof.
  intros Hsame Hstream Hfit Htail.
  assert (Hdel : delivers rd1 = (unlines lines ++ tail, snd (delivers rd1))).
  { rewrite <- Hstream. destruct (delivers rd1). reflexivity. }
  rewrite (ReadLines_of_stream W WW rd1 wr1 lines tail _ n Hdel Hfit Htail).
  rewrite Hsame in Hdel at 1.
  rewrite (ReadLines_of_stream W WW rd2 wr2 lines tail _ n Hdel Hfit Htail).
  reflexivity.
Qed.

Lemma ReadLines_chunking_independent_witness :
  returned (ReadLines 3 (New hello_world devnull))
  = returned (ReadLines 3 (New hello_world_in_pieces devnull)).
Proof.
  apply (ReadLines_chunking_independent Sink SinkWriter
           hello_world hello_world_in_pieces devnull devnull
           [bytes_of "hello" ++ [CR]; bytes_of "world"] [] 3).
  - reflexivity.
  - reflexivity.
  - repeat constructor; try (vm_compute; reflexivity);
      intros Hin; vm_compute in Hin; intuition discriminate.
  - split; [intros [] | vm_compute; reflexivity].
Defined.

Lemma delivers_from_stall (k : nat) :
  forall (n : nat) (rd : Script),
    (k < n)%nat ->
    delivers_from k (repeat ([], None) n ++ rd) = ([], ErrNoProgress).
Proof.
  induction k as [|k IH]; intros [|n] rd Hlt; try lia; simpl.
  - reflexivity.
  - apply IH. lia.
Qed.

(** X8.  A reader that answers more than 100 times in a row with no bytes
    and no error makes every [ReadLine] return the empty string and
    [io.ErrNoProgress], whatever it would deliver afterwards. *)
Theorem ReadLine_stalled_reader
  (W : Type) (WW : io.Writer W) (rd : Script) (wr : W) (n k : nat) :
  (bufio.maxConsecutiveEmptyReads < n)%nat ->
  returned (ReadLines k (New (repeat ([], None) n ++ rd) wr))
  = Some (repeat ([], Some ErrNoProgress) k).
Proof.
  intros Hn. apply returned_Ok.
  apply (ReadLines_end k (New (repeat ([], None) n ++ rd) wr) ErrNoProgress).
  - apply pending_New. apply delivers_from_stall. exact Hn.
  - exact MaxScanTokenSize_pos.
Qed.

Lemma ReadLine_stalled_reader_witness :
  returned (ReadLines 2 (New (repeat ([], None) 101 ++ hello_world) devnull))
  = Some (repeat ([], Some ErrNoProgress) 2).
Proof.
  apply (ReadLine_stalled_reader Sink SinkWriter hello_world devnull 101 2).
  vm_compute. apply le_n.
Defined.

(** ** The first reads of a new terminal *)

Lemma maxInt_half_pos : (Z.quot bufio.maxInt 2 <? 0) = false.
Proof. vm_compute. reflexivity. Qed.

(** The first turn of a new scanner: a buffer of [startBufSize] bytes is
    made and a round of reads into it begins. *)
Lemma first_turn (R : Type) (RR : io.Reader R) (rd : R) :
  bufio.scan_turn (bufio.NewScanner rd)
  = bufio.Continue
      (bufio.read_loop bufio.maxConsecutiveEmptyReads
         (bufio.mkScanner rd bufio.MaxScanTokenSize None bufio.startBufSize
                          0 [] None 0 false)).
Proof.
  unfold bufio.scan_turn, bufio.fill, bufio.NewScanner, bufio.end_. simpl.
  rewrite maxInt_half_pos. simpl. reflexivity.
Qed.

Lemma first_Scan (R : Type) (RR : io.Reader R) (rd : R) :
  bufio.Scan (bufio.NewScanner rd)
  = bufio.scan_loop (Nat.pred (Z.to_nat (bufio.MaxScanTokenSize + 2)))
      (bufio.read_loop bufio.maxConsecutiveEmptyReads
         (bufio.mkScanner rd bufio.MaxScanTokenSize None bufio.startBufSize
                          0 [] None 0 false)).
Proof.
  rewrite (Scan_loop _ (wf_NewScanner rd)).
  change (bufio.scan_fuel (bufio.NewScanner rd))
    with (Z.to_nat (bufio.MaxScanTokenSize + 2)).
  pose proof MaxScanTokenSize_pos as Hpos.
  destruct (Z.to_nat (bufio.MaxScanTokenSize + 2)) as [|fuel] eqn:Hf; [lia|].
  cbn [bufio.scan_loop Nat.pred]. rewrite first_turn. reflexivity.
Qed.

Lemma read_loop_empty_read (k : nat) (sc : bufio.Scanner Script)
      (rest : Script) :
  bufio.r sc = ([], None) :: rest ->
  0 <= bufio.buf_len sc - bufio.end_ sc ->
  bufio.read_loop (S k) sc = bufio.read_loop k (bufio.set_r rest sc).
Proof.
  destruct sc as [rd M tk L st d er em dn]. unfold bufio.end_. simpl.
  intros -> Hcap. unfold bufio.end_. simpl.
  change (len (@nil byte)) with 0.
  destruct (Z.leb_spec 0 (L - (st + len d))); [|lia]. simpl.
  change (len (@nil byte)) with 0.
  destruct (Z.ltb_spec (L - (st + len d)) 0); [lia|]. simpl.
  rewrite app_nil_r. reflexivity.
Qed.

Lemma read_loop_skip (n : nat) :
  forall (k : nat) (sc : bufio.Scanner Script) (rd : Script),
    bufio.r sc = repeat ([], None) n ++ rd ->
    0 <= bufio.buf_len sc - bufio.end_ sc ->
    bufio.read_loop (n + k) sc = bufio.read_loop k (bufio.set_r rd sc).
Proof.
  induction n as [|n IH]; intros k sc rd Hr Hcap.
  - simpl in *. rewrite <- Hr. destruct sc. reflexivity.
  - cbn [Nat.add]. simpl in Hr.
    rewrite (read_loop_empty_read (n + k) sc _ Hr Hcap).
    etransitivity; [apply (IH k _ rd)|].
    + destruct sc. reflexivity.
    + destruct sc. exact Hcap.
    + destruct sc. reflexivity.
Qed.

(** When the first read brings bytes or an error, the number of empty reads
    still allowed does not matter. *)
Lemma read_loop_any_budget (k : nat) (sc : bufio.Scanner Script) :
  (forall rest, bufio.r sc <> ([], None) :: rest) ->
  0 < bufio.buf_len sc - bufio.end_ sc ->
  bufio.read_loop k sc = bufio.read_loop 0 sc.
Proof.
  destruct sc as [rd M tk L st d er em dn]. unfold bufio.end_. simpl.
  intros Hhead Hcap. destruct k as [|k]; [reflexivity|].
  destruct rd as [|[bs oe] rd'].
  - reflexivity.
  - simpl. unfold bufio.end_. simpl.
    pose proof (len_nonneg bs) as Hbs.
    destruct (Z.leb_spec (len bs) (L - (st + len d))) as [Hfit|Hcut]; simpl.
    + destruct oe as [e|]; [reflexivity|].
      assert (Hne : bs <> []) by (intros ->; apply (Hhead rd'); reflexivity).
      pose proof (len_pos bs Hne) as Hpos.
      destruct (Z.ltb_spec (len bs) 0); [lia|].
      destruct (Z.ltb_spec (L - (st + len d)) (len bs)); [lia|]. simpl.
      destruct (Z.ltb_spec 0 (len bs)); [reflexivity | lia].
    + assert (Hlen : len (firstn (Z.to_nat (L - (st + len d))) bs)
                     = L - (st + len d)).
      { unfold len in *. rewrite length_firstn. lia. }
      rewrite Hlen.
      destruct (Z.ltb_spec (L - (st + len d)) 0); [lia|].
      destruct (Z.ltb_spec (L - (st + len d)) (L - (st + len d))); [lia|].
      simpl. destruct (Z.ltb_spec 0 (L - (st + len d))); [reflexivity | lia].
Qed.

(** X9.  Up to 100 empty reads (no bytes, nil error) before the first bytes
    or error of a reader change nothing: the first [ReadLine] returns the same
    line and error, and leaves the same terminal, as without them. *)
Theorem ReadLine_skips_empty_reads
  (W : Type) (WW : io.Writer W) (rd : Script) (wr : W) (n : nat) :
  (n <= bufio.maxConsecutiveEmptyReads)%nat ->
  (forall rest, rd <> ([], None) :: rest) ->
  ReadLine (New (repeat ([], None) n ++ rd) wr) = ReadLine (New rd wr).
Proof.
  intros Hn Hhead. unfold ReadLine, New. cbn [s w].
  assert (Hcap : 0 < bufio.startBufSize - (0 + len (@nil byte)))
    by reflexivity.
  rewrite !first_Scan.
  replace bufio.maxConsecutiveEmptyReads
    with (n + (bufio.maxConsecutiveEmptyReads - n))%nat at 1 by lia.
  rewrite (read_loop_skip n _
             (bufio.mkScanner (repeat ([], None) n ++ rd)
                bufio.MaxScanTokenSize None bufio.startBufSize
                0 [] None 0 false) rd eq_refl);
    [|apply Z.lt_le_incl; exact Hcap].
  cbn [bufio.set_r bufio.r bufio.maxTokenSize bufio.tok bufio.buf_len
       bufio.start bufio.data bufio.err bufio.empties bufio.done].
  rewrite (read_loop_any_budget (bufio.maxConsecutiveEmptyReads - n));
    [|exact Hhead | exact Hcap].
  rewrite (read_loop_any_budget bufio.maxConsecutiveEmptyReads);
    [|exact Hhead | exact Hcap].
  reflexivity.
Qed.

Lemma ReadLine_skips_empty_reads_witness :
  ReadLine (New (repeat ([], None) 3 ++ hello_world) devnull)
  = ReadLine (New hello_world devnull).
Proof.
  apply (ReadLine_skips_empty_reads Sink SinkWriter hello_world devnull 3).
  - apply Nat.leb_le. vm_compute. reflexivity.
  - intros rest Heq. vm_compute in Heq. discriminate Heq.
Defined.

Lemma read_loop_bad_count (R : Type) (RR : io.Reader R) (k : nat)
      (sc : bufio.Scanner R) (bs : list byte) (e : option error) (rd' : R) :
  io.Read (bufio.r sc) (bufio.buf_len sc - bufio.end_ sc) = (bs, e, rd') ->
  bufio.buf_len sc - bufio.end_ sc < len bs ->
  bufio.read_loop k sc = bufio.setErr ErrBadReadCount (bufio.set_r rd' sc).
Proof.
  destruct sc as [rd M tk L st d er em dn]. unfold bufio.end_. simpl.
  intros Hread Hbad. pose proof (len_nonneg bs) as Hbs.
  destruct k; simpl; unfold bufio.end_; simpl; rewrite Hread; simpl;
    (destruct (Z.ltb_spec (len bs) 0); [lia|]);
    (destruct (Z.ltb_spec (L - (st + len d)) (len bs)); [|lia]);
    reflexivity.
Qed.

(** X10.  A reader that breaks the [io.Reader] contract is not trusted: when
    the first [Read] of a new terminal, which is given a buffer of
    [startBufSize] (4096) bytes, claims more bytes than that, [ReadLine]
    returns the empty string and [bufio.ErrBadReadCount]. *)
Theorem ReadLine_bad_read_count
  (R W : Type) (RR : io.Reader R) (WW : io.Writer W) (rd rd' : R) (wr : W)
  (bs : list byte) (e : option error) :
  io.Read rd bufio.startBufSize = (bs, e, rd') ->
  bufio.startBufSize < len bs ->
  returned (ReadLine (New rd wr)) = Some ([], Some ErrBadReadCount).
Proof.
  intros Hread Hbad. unfold ReadLine, New. cbn [s w].
  rewrite first_Scan.
  rewrite (read_loop_bad_count R RR _ _ bs e rd'); [|exact Hread|exact Hbad].
  pose proof MaxScanTokenSize_pos as Hpos.
  destruct (Nat.pred (Z.to_nat (bufio.MaxScanTokenSize + 2))) as [|fuel] eqn:Hf;
    [lia|].
  cbn [bufio.scan_loop].
  rewrite (turn_stopped
             (bufio.setErr ErrBadReadCount
                (bufio.set_r rd'
                   (bufio.mkScanner rd bufio.MaxScanTokenSize None
                      bufio.startBufSize 0 [] None 0 false)))
             ErrBadReadCount eq_refl eq_refl).
  reflexivity.
Qed.

Lemma ReadLine_bad_read_count_witness :
  returned (ReadLine (New rogue devnull)) = Some ([], Some ErrBadReadCount).
Proof.
  apply (ReadLine_bad_read_count Rogue Sink RogueReader SinkWriter
           rogue rogue devnull
           (repeat "a"%byte (Z.to_nat (bufio.startBufSize + 1))) None).
  - reflexivity.
  - vm_compute. reflexivity.
Defined.

Lemma read_loop_chunk (k : nat) (sc : bufio.Scanner Script)
      (bs : list byte) (rd : Script) :
  bufio.r sc = (bs, None) :: rd -> bs <> [] ->
  len bs <= bufio.buf_len sc - bufio.end_ sc ->
  bufio.read_loop k sc
  = bufio.set_empties 0
      (bufio.set_data (bufio.data sc ++ bs) (bufio.set_r rd sc)).
Proof.
  destruct sc as [rd0 M tk L st d er em dn]. unfold bufio.end_. simpl.
  intros -> Hne Hfit. pose proof (len_pos bs Hne) as Hpos.
  destruct k; simpl; unfold bufio.end_; simpl;
    (destruct (Z.leb_spec (len bs) (L - (st + len d))); [|lia]); simpl;
    (destruct (Z.ltb_spec (len bs) 0); [lia|]);
    (destruct (Z.ltb_spec (L - (st + len d)) (len bs)); [lia|]); simpl;
    (destruct (Z.ltb_spec 0 (len bs)); [|lia]);
    reflexivity.
Qed.

(** X11.  [ReadLine] reads ahead: when the first read of a new terminal
    brings a whole line and more (at most [startBufSize] bytes in all),
    [ReadLine] returns the line, and the bytes after it have left the reader
    and wait in the scanner's buffer. *)
Theorem ReadLine_reads_ahead
  (W : Type) (WW : io.Writer W) (rd : Script) (wr : W)
  (line rest : list byte) :
  ~ In LF line ->
  len (line ++ LF :: rest) <= bufio.startBufSize ->
  exists f',
    ReadLine (New ((line ++ LF :: rest, None) :: rd) wr) = Ok (as_line line, f')
    /\ bufio.r (s f') = rd
    /\ bufio.data (s f') = rest
    /\ w f' = wr.
Proof.
  intros Hline Hlen. unfold ReadLine, New. cbn [s w].
  rewrite first_Scan.
  rewrite (read_loop_chunk _
             (bufio.mkScanner ((line ++ LF :: rest, None) :: rd)
                bufio.MaxScanTokenSize None bufio.startBufSize
                0 [] None 0 false)
             (line ++ LF :: rest) rd eq_refl).
  - pose proof MaxScanTokenSize_pos as Hpos.
    destruct (Nat.pred (Z.to_nat (bufio.MaxScanTokenSize + 2)))
      as [|fuel] eqn:Hf; [lia|].
    cbn [bufio.scan_loop].
    rewrite (turn_line
               (bufio.set_empties 0
                  (bufio.set_data ([] ++ line ++ LF :: rest)
                     (bufio.set_r rd
                        (bufio.mkScanner ((line ++ LF :: rest, None) :: rd)
                           bufio.MaxScanTokenSize None bufio.startBufSize
                           0 [] None 0 false))))
               line rest eq_refl Hline).
    eexists. split; [|split; [|split]].
    + unfold as_line, bufio.Text. simpl. rewrite TrimRight_dropCR.
      reflexivity.
    + reflexivity.
    + reflexivity.
    + reflexivity.
  - intros Heq. apply app_eq_nil in Heq. destruct Heq as [_ Heq].
    discriminate Heq.
  - exact Hlen.
Qed.

Lemma ReadLine_reads_ahead_witness :
  exists f',
    ReadLine (New (((bytes_of "hello" ++ [CR])
                    ++ LF :: bytes_of "world" ++ [LF], None) :: []) devnull)
    = Ok (as_line (bytes_of "hello" ++ [CR]), f')
    /\ bufio.r (s f') = []
    /\ bufio.data (s f') = bytes_of "world" ++ [LF]
    /\ w f' = devnull.
Proof.
  apply (ReadLine_reads_ahead Sink SinkWriter [] devnull
           (bytes_of "hello" ++ [CR]) (bytes_of "world" ++ [LF])).
  - intros Hin. vm_compute in Hin. intuition discriminate.
  - vm_compute. discriminate.
Defined.
